(** * Jucer2CMake: a shallow embedding of [Jucer2CMake/main.cpp]

    The translator reads a [.jucer] project (an XML document turned into a
    [juce::ValueTree]) and writes a [CMakeLists.txt] made of Reprojucer
    directives.  Strings are [std::string]s, modelled as Rocq [string]s
    (sequences of 8-bit characters); positions are [size_t] indices,
    modelled as [nat]; [std::string::npos] is [None].

    Code that can throw or loop for ever returns an [outcome]. *)

From Stdlib Require Import Lists.List.
From Stdlib Require Import Arith.PeanoNat ZArith.ZArith.
From Stdlib Require Import Bool.Bool.
From Stdlib Require Import micromega.Lia.
From Stdlib Require Import Strings.Ascii Strings.String.
Import ListNotations.

Local Open Scope list_scope.
Local Open Scope string_scope.

(** ** Outcomes of a C++ computation *)

Inductive outcome (A : Type) : Type :=
| Returns (a : A)     (* normal completion with a value *)
| Throws              (* a C++ exception escaped ([std::out_of_range]) *)
| OutOfFuel.          (* the loop was still running when the fuel ran out *)

Arguments Returns {A} a.
Arguments Throws {A}.
Arguments OutOfFuel {A}.

Definition bind {A B : Type} (m : outcome A) (k : A -> outcome B) : outcome B :=
  match m with
  | Returns a => k a
  | Throws => Throws
  | OutOfFuel => OutOfFuel
  end.

Definition lift {A : Type} (o : option A) : outcome A :=
  match o with
  | Some a => Returns a
  | None => Throws
  end.

Declare Scope outcome_scope.
Delimit Scope outcome_scope with outcome.
Notation "x <- m ;; k" := (bind m (fun x => k))
  (at level 61, m at next level, right associativity) : outcome_scope.
Local Open Scope outcome_scope.

(** ** The [std::string] operations the program uses *)

Module StdString.

(** The characters of [s] from position [n] on. *)
Fixpoint drop (n : nat) (s : string) : string :=
  match n, s with
  | O, _ => s
  | S _, EmptyString => EmptyString
  | S n', String _ s' => drop n' s'
  end.

(** The first [n] characters of [s] (fewer when [s] is shorter). *)
Fixpoint take (n : nat) (s : string) : string :=
  match n, s with
  | O, _ => EmptyString
  | S _, EmptyString => EmptyString
  | S n', String c s' => String c (take n' s')
  end.

(** [s.substr(pos, len)]: throws [std::out_of_range] when
    [pos > s.size()], and is cut at the end of [s]. *)
Definition substr (s : string) (pos len : nat) : option string :=
  if (pos <=? length s)%nat then Some (take len (drop pos s)) else None.

(** [s.substr(pos)], the count defaulting to [npos]. *)
Definition substr_from (s : string) (pos : nat) : option string :=
  if (pos <=? length s)%nat then Some (drop pos s) else None.

(** [s.insert(pos, t)]: throws [std::out_of_range] when [pos > s.size()]. *)
Definition insert (s : string) (pos : nat) (t : string) : option string :=
  if (pos <=? length s)%nat then Some (take pos s ++ t ++ drop pos s) else None.

(** Whether the character [c] occurs in [chars]. *)
Fixpoint mem (c : ascii) (chars : string) : bool :=
  match chars with
  | EmptyString => false
  | String d chars' => (c =? d)%char || mem c chars'
  end.

(** Index of the first character of [s] that occurs in [chars]. *)
Fixpoint first_of (chars s : string) : option nat :=
  match s with
  | EmptyString => None
  | String c s' =>
      if mem c chars then Some 0 else option_map S (first_of chars s')
  end.

(** [s.find_first_of(chars, pos)]. *)
Definition find_first_of (s chars : string) (pos : nat) : option nat :=
  option_map (Nat.add pos) (first_of chars (drop pos s)).

(** Index of the first occurrence of [str] in [s]. *)
Fixpoint occurrence (str s : string) : option nat :=
  if prefix str s then Some 0
  else match s with
       | EmptyString => None
       | String _ s' => option_map S (occurrence str s')
       end.

(** [s.find(str, pos)]: the lowest index [i >= pos] at which [str] occurs
    in [s]; an empty [str] is found at every [pos <= s.size()]. *)
Definition find (s str : string) (pos : nat) : option nat :=
  if (pos <=? length s)%nat
  then option_map (Nat.add pos) (occurrence str (drop pos s))
  else None.

End StdString.

Import StdString.

(** The characters the emitted text is built from. *)
Definition dquote : ascii := "034"%char.
Definition newline : ascii := "010"%char.
Definition backslash : ascii := "092"%char.

(** One-character strings: a double quote, a line feed, a backslash. *)
Definition Q : string := String dquote "".
Definition NL : string := String newline "".
Definition BS : string := String backslash "".

(** ** [printError] *)

(** The text [printError] sends to [std::cerr]. *)
Definition printError (error : string) : string :=
  "error: " ++ error ++ NL.

(** ** [escape] *)

(** The [while] loop of [escape]: one unit of fuel per evaluation of the
    loop condition. *)
Fixpoint escape_loop (fuel : nat) (charsToEscape value : string) (pos : nat)
  : outcome string :=
  match fuel with
  | O => OutOfFuel
  | S fuel' =>
      match find_first_of value charsToEscape pos with
      | Some pos' =>
          value' <- lift (insert value pos' BS) ;;
          escape_loop fuel' charsToEscape value' (pos' + 2)
      | None => Returns value
      end
  end.

(** The loop condition is evaluated at most once per character of [value]
    and once more to leave the loop. *)
Definition escape (charsToEscape value : string) : outcome string :=
  escape_loop (S (length value)) charsToEscape value 0.

(** ** [join] *)

Definition join (sep : string) (elements : list string) : string :=
  match elements with
  | [] => ""
  | first :: rest =>
      fold_left (fun sum elm => (sum ++ sep) ++ elm) rest first
  end.

(** ** [split] *)

(** The [while] loop of [split] followed by the last [push_back]. *)
Fixpoint split_loop (fuel : nat) (sep value : string) (start : nat)
  (tokens : list string) : outcome (list string) :=
  match fuel with
  | O => OutOfFuel
  | S fuel' =>
      match find value sep start with
      | Some end_ =>
          token <- lift (substr value start (end_ - start)) ;;
          split_loop fuel' sep value (end_ + length sep) (tokens ++ [token])%list
      | None =>
          token <- lift (substr_from value start) ;;
          Returns (tokens ++ [token])%list
      end
  end.

Definition split_fuel (fuel : nat) (sep value : string)
  : outcome (list string) :=
  split_loop fuel sep value 0 [].

(** With a separator of at least one character the loop condition is
    evaluated at most [length value + 1] times. *)
Definition split (sep value : string) : outcome (list string) :=
  split_fuel (S (length value)) sep value.

(** ** The JUCE types the program reads

    [juce::var], [juce::ValueTree], [juce::XmlElement] and [juce::String]
    belong to the JUCE library, which [main.cpp] includes through
    [JuceHeader.h]; the definitions below follow the behaviour of the
    member functions [main.cpp] calls.  [juce::String] and [std::string]
    hold the same bytes, so [toStdString] and [juce::String{...}] are the
    identity.  What depends on the file system ([juce::File],
    [XmlDocument::parse]) is not modelled here: [main] takes it as
    parameters. *)

Module juce.

(** A [juce::var] of a tree built by [ValueTree::fromXml] is a string; a
    property that is not set reads as the void [var], whose string form is
    empty and whose integer form is 0. *)
Inductive var : Type :=
| varVoid
| varString (s : string).

(** [var::toString]. *)
Definition toString (v : var) : string :=
  match v with
  | varVoid => ""
  | varString s => s
  end.

Definition wrap32 (z : Z) : Z :=
  ((z + 2147483648) mod 4294967296 - 2147483648)%Z.

Definition isWhitespace (c : ascii) : bool :=
  let n := nat_of_ascii c in
  (n =? 32)%nat || ((9 <=? n)%nat && (n <=? 13)%nat).

Definition isDigit (c : ascii) : bool :=
  let n := nat_of_ascii c in (48 <=? n)%nat && (n <=? 57)%nat.

Fixpoint findEndOfWhitespace (s : string) : string :=
  match s with
  | String c s' => if isWhitespace c then findEndOfWhitespace s' else s
  | EmptyString => s
  end.

(** The digit loop of [CharacterFunctions::getIntValue], on a 32-bit
    [int]. *)
Fixpoint readDigits (s : string) (v : Z) : Z :=
  match s with
  | String c s' =>
      if isDigit c
      then readDigits s' (wrap32 (v * 10 + (Z.of_nat (nat_of_ascii c) - 48)))
      else v
  | EmptyString => v
  end.

(** [String::getIntValue]: leading white space, an optional minus sign,
    then decimal digits up to the first other character. *)
Definition getIntValue (s : string) : Z :=
  match findEndOfWhitespace s with
  | String "-"%char s' => wrap32 (- readDigits s' 0)
  | s' => readDigits s' 0
  end.

(** [var::operator int]: 0 for the void [var], [getIntValue] for a
    string. *)
Definition toInt (v : var) : Z :=
  match v with
  | varVoid => 0%Z
  | varString s => getIntValue s
  end.

(** [operator== (const var&, const char* )] compares the string forms. *)
Definition var_eq_string (v : var) (s : string) : bool :=
  (toString v =? s)%string.

(** [operator== (const var&, const var&)], with the stored property on
    the left: the void [var] equals only a void [var]. *)
Definition var_eqb (v w : var) : bool :=
  match v, w with
  | varVoid, varVoid => true
  | varVoid, varString _ => false
  | varString s, _ => (toString w =? s)%string
  end.

(** A [ValueTree]: a type name, named properties in order, children in
    order.  The invalid tree (a default-constructed [ValueTree]) has no
    type, no property and no child; the nodes of a tree read from XML all
    have a type name that is not empty. *)
#[warnings="-register-all"]
Inductive ValueTree : Type :=
| VT (type : string) (properties : list (string * var))
     (children : list ValueTree).

Definition invalidTree : ValueTree := VT "" [] [].

Definition getType (t : ValueTree) : string :=
  match t with VT type _ _ => type end.

Definition getProperties (t : ValueTree) : list (string * var) :=
  match t with VT _ properties _ => properties end.

Definition getChildren (t : ValueTree) : list ValueTree :=
  match t with VT _ _ children => children end.

Definition isValid (t : ValueTree) : bool :=
  negb (getType t =? "")%string.

Definition hasType (t : ValueTree) (typeName : string) : bool :=
  isValid t && (getType t =? typeName)%string.

Fixpoint lookup (name : string) (properties : list (string * var))
  : option var :=
  match properties with
  | [] => None
  | (k, v) :: rest => if (k =? name)%string then Some v else lookup name rest
  end.

Definition hasProperty (t : ValueTree) (name : string) : bool :=
  match lookup name (getProperties t) with
  | Some _ => true
  | None => false
  end.

Definition getProperty (t : ValueTree) (name : string) : var :=
  match lookup name (getProperties t) with
  | Some v => v
  | None => varVoid
  end.

Definition getChildWithName (t : ValueTree) (typeName : string)
  : ValueTree :=
  match List.find (fun c => (getType c =? typeName)%string) (getChildren t) with
  | Some c => c
  | None => invalidTree
  end.

Definition getChild (t : ValueTree) (index : nat) : ValueTree :=
  nth index (getChildren t) invalidTree.

Definition getChildWithProperty (t : ValueTree) (name : string)
  (value : var) : ValueTree :=
  match List.find (fun c => var_eqb (getProperty c name) value) (getChildren t)
  with
  | Some c => c
  | None => invalidTree
  end.

(** [CharacterFunctions::toLowerCase] on 8-bit characters. *)
Definition toLowerCase (c : ascii) : ascii :=
  let n := nat_of_ascii c in
  if (65 <=? n)%nat && (n <=? 90)%nat then ascii_of_nat (n + 32) else c.

Fixpoint lowered (s : string) : string :=
  match s with
  | EmptyString => EmptyString
  | String c s' => String (toLowerCase c) (lowered s')
  end.

(** An XML element: tag name, attributes, child elements.  Text elements
    are left out: [fromXml] drops them. *)
#[warnings="-register-all"]
Inductive XmlElement : Type :=
| Xml (tagName : string) (attributes : list (string * string))
      (elements : list XmlElement).

(** [XmlElement::hasTagName] lets a match that differs only in case
    pass. *)
Definition hasTagName (x : XmlElement) (tag : string) : bool :=
  match x with
  | Xml tagName _ _ => (lowered tagName =? lowered tag)%string
  end.

(** [ValueTree::fromXml]: every attribute becomes a string property. *)
Fixpoint fromXml (x : XmlElement) : ValueTree :=
  match x with
  | Xml tagName attributes elements =>
      VT tagName
         (map (fun kv => (fst kv, varString (snd kv))) attributes)
         (map fromXml elements)
  end.

(** [String::endsWithIgnoreCase]. *)
Definition endsWithIgnoreCase (s suffix : string) : bool :=
  (length suffix <=? length s)%nat
  && (lowered (StdString.drop (length s - length suffix) s)
      =? lowered suffix)%string.

(** [File::createFileWithoutCheckingPath (path).hasFileExtension (ext)]
    for an extension given without its dot and without a semicolon: the
    path ends with [ext], whatever the case, after a dot. *)
Definition hasFileExtension (path ext : string) : bool :=
  endsWithIgnoreCase path ext
  && (length ext + 1 <=? length path)%nat
  && match get (length path - length ext - 1) path with
     | Some c => (c =? ".")%char
     | None => false
     end.

(** [String::startsWith]. *)
Definition startsWith (s p : string) : bool := prefix p s.

(** [String::replace] for one-character patterns. *)
Fixpoint replace (s : string) (from to : ascii) : string :=
  match s with
  | EmptyString => EmptyString
  | String c s' =>
      String (if (c =? from)%char then to else c) (replace s' from to)
  end.

End juce.

Import juce.

(** ** [getSetting] *)

Definition getSetting (valueTree : ValueTree) (cmakeTag property : string)
  : outcome string :=
  if hasProperty valueTree property
  then
    let value := toString (getProperty valueTree property) in
    if negb (value =? "")%string
    then
      escaped <- escape Q value ;;
      Returns (cmakeTag ++ " " ++ Q ++ escaped ++ Q)
    else Returns ("# " ++ cmakeTag)
  else Returns ("# " ++ cmakeTag).

(** ** The file groups: [writeFileGroups] and [processGroup] *)

(** The text [writeFileGroups] appends to the stream [out]. *)
Definition writeFileGroups (fullGroupName : string)
  (filePaths doNotCompileFilePaths resourcePaths : list string)
  (out : string) : string :=
  let out :=
    match filePaths with
    | [] => out
    | _ :: _ =>
        let out := out ++ "jucer_project_files(" ++ Q ++ fullGroupName ++ Q ++ NL in
        let out :=
          fold_left (fun out filePath => out ++ "  " ++ Q ++ filePath ++ Q ++ NL)
            filePaths out in
        let out :=
          match doNotCompileFilePaths with
          | [] => out
          | _ :: _ =>
              let out := out ++ ")" ++ NL ++ "set_source_files_properties(" ++ NL in
              let out :=
                fold_left
                  (fun out doNotCompileFilePath =>
                     out ++ "  " ++ Q ++ "${JUCER_PROJECT_DIR}/"
                         ++ doNotCompileFilePath ++ Q ++ NL)
                  doNotCompileFilePaths out in
              out ++ "  PROPERTIES HEADER_FILE_ONLY TRUE" ++ NL
          end in
        out ++ ")" ++ NL ++ NL
    end in
  match resourcePaths with
  | [] => out
  | _ :: _ =>
      let out := out ++ "jucer_project_resources(" ++ Q ++ fullGroupName ++ Q ++ NL in
      let out :=
        fold_left
          (fun out resourcePath => out ++ "  " ++ Q ++ resourcePath ++ Q ++ NL)
          resourcePaths out in
      out ++ ")" ++ NL ++ NL
  end.

(** The three vectors a call of [processGroup] fills. *)
Record Pending : Type := mkPending {
  filePaths : list string;
  doNotCompileFilePaths : list string;
  resourcePaths : list string
}.

Definition noPending : Pending := mkPending [] [] [].

(** The branch of the loop body taken for a child of type [FILE]. *)
Definition addFile (file : ValueTree) (acc : Pending) : Pending :=
  let path := toString (getProperty file "file") in
  if (toInt (getProperty file "resource") =? 1)%Z
  then mkPending (filePaths acc) (doNotCompileFilePaths acc)
         (resourcePaths acc ++ [path])%list
  else
    let filePaths' := (filePaths acc ++ [path])%list in
    if hasFileExtension path "cpp"
       && (toInt (getProperty file "compile") =? 0)%Z
    then mkPending filePaths' (doNotCompileFilePaths acc ++ [path])%list
           (resourcePaths acc)
    else mkPending filePaths' (doNotCompileFilePaths acc) (resourcePaths acc).

Section FileGroups.

(** [processGroup] reaches the output only through the closure
    [writeFileGroups] it captures; [Out] is what that closure writes to. *)
Variable Out : Type.
Variable write :
  string -> list string -> list string -> list string -> Out -> Out.

(** The variables the closure [processGroup] captures by reference and
    changes: the stack [groupNames], and the output. *)
Definition GroupState : Type := (list string * Out)%type.

Definition flush (fullGroupName : string) (acc : Pending) (st : GroupState)
  : GroupState :=
  (fst st,
   write fullGroupName (filePaths acc) (doNotCompileFilePaths acc)
     (resourcePaths acc) (snd st)).

(** The [for] loop over the children of a group; [recurse] is the
    recursive call. *)
Fixpoint processChildren (recurse : ValueTree -> GroupState -> GroupState)
  (fullGroupName : string) (children : list ValueTree) (acc : Pending)
  (st : GroupState) : Pending * GroupState :=
  match children with
  | [] => (acc, st)
  | fileOrGroup :: rest =>
      if hasType fileOrGroup "FILE"
      then processChildren recurse fullGroupName rest
             (addFile fileOrGroup acc) st
      else
        let st := flush fullGroupName acc st in
        let st := recurse fileOrGroup st in
        processChildren recurse fullGroupName rest noPending st
  end.

Fixpoint processGroup (group : ValueTree) (st : GroupState) : GroupState :=
  match group with
  | VT _ _ children =>
      let groupNames :=
        (fst st ++ [toString (getProperty group "name")])%list in
      let fullGroupName := join "/" groupNames in
      let '(acc, st) :=
        processChildren processGroup fullGroupName children noPending
          (groupNames, snd st) in
      let st := flush fullGroupName acc st in
      (removelast (fst st), snd st)
  end.

End FileGroups.

Arguments flush {Out} write fullGroupName acc st.
Arguments processChildren {Out} write recurse fullGroupName children acc st.
Arguments processGroup {Out} write group st.

(** ** [main] *)

(** What a run of the program leaves behind: the text sent to [std::cerr],
    the contents of [CMakeLists.txt] when the file was opened, and the exit
    status. *)
Record ProcessResult : Type := mkResult {
  cerr : string;
  cmakeLists : option string;
  exitStatus : Z
}.

(** Runs [body] on every element in order and concatenates what each run
    writes. *)
Fixpoint forEach {A : Type} (body : A -> outcome string) (l : list A)
  : outcome string :=
  match l with
  | [] => Returns ""
  | a :: l' =>
      text <- body a ;;
      texts <- forEach body l' ;;
      Returns (text ++ texts)
  end.

(** [std::isalpha (c, std::locale{"C"}) || std::isdigit (c, std::locale{"C"})]. *)
Definition isAlphaOrDigit (c : ascii) : bool :=
  let n := nat_of_ascii c in
  ((65 <=? n)%nat && (n <=? 90)%nat)
  || ((97 <=? n)%nat && (n <=? 122)%nat)
  || ((48 <=? n)%nat && (n <=? 57)%nat).

(** The [std::replace_if] call that builds [escapedJucerFileName]. *)
Fixpoint escapeFileName (s : string) : string :=
  match s with
  | EmptyString => EmptyString
  | String c s' =>
      String (if negb (isAlphaOrDigit c) then "_"%char else c)
        (escapeFileName s')
  end.

(** The lambda [onOffProjectSetting]. *)
Definition onOffProjectSetting (jucerProject : ValueTree)
  (cmakeTag property : string) : string :=
  if hasProperty jucerProject property
  then
    let value := toInt (getProperty jucerProject property) in
    cmakeTag ++ " " ++ (if (value =? 0)%Z then "OFF" else "ON")
  else "# " ++ cmakeTag.

Definition projectTypeDescription (projectType : string) : string :=
  if (projectType =? "guiapp")%string then "GUI Application"
  else if (projectType =? "consoleapp")%string then "Console Application"
  else if (projectType =? "library")%string then "Static Library"
  else if (projectType =? "audioplug")%string then "Audio Plug-in"
  else "".

(** The [out << ...] statement of the block [jucer_project_settings()]. *)
Definition projectSettings (jucerProject : ValueTree) : outcome string :=
  let projectSetting := getSetting jucerProject in
  let projectType := toString (getProperty jucerProject "projectType") in
  name <- projectSetting "PROJECT_NAME" "name" ;;
  version <- projectSetting "PROJECT_VERSION" "version" ;;
  companyName <- projectSetting "COMPANY_NAME" "companyName" ;;
  companyWebsite <- projectSetting "COMPANY_WEBSITE" "companyWebsite" ;;
  companyEmail <- projectSetting "COMPANY_EMAIL" "companyEmail" ;;
  bundleIdentifier <- projectSetting "BUNDLE_IDENTIFIER" "bundleIdentifier" ;;
  binaryDataNamespace <-
    projectSetting "BINARYDATA_NAMESPACE" "binaryDataNamespace" ;;
  defines <- projectSetting "PREPROCESSOR_DEFINITIONS" "defines" ;;
  Returns
    ("jucer_project_settings(" ++ NL
     ++ "  " ++ name ++ NL
     ++ "  " ++ version ++ NL
     ++ "  " ++ companyName ++ NL
     ++ "  " ++ companyWebsite ++ NL
     ++ "  " ++ companyEmail ++ NL
     ++ "  PROJECT_TYPE " ++ Q ++ projectTypeDescription projectType ++ Q ++ NL
     ++ "  " ++ bundleIdentifier ++ NL
     ++ "  BINARYDATACPP_SIZE_LIMIT " ++ Q ++ "Default" ++ Q ++ NL
     ++ "  " ++ binaryDataNamespace ++ NL
     ++ "  " ++ defines ++ NL
     ++ ")" ++ NL
     ++ NL).

(** The block [jucer_audio_plugin_settings()]. *)
Definition audioPluginSettings (jucerProject : ValueTree) : outcome string :=
  let projectSetting := getSetting jucerProject in
  let onOff := onOffProjectSetting jucerProject in
  if (toString (getProperty jucerProject "projectType") =? "audioplug")%string
  then
    pluginName <- projectSetting "PLUGIN_NAME" "pluginName" ;;
    pluginDesc <- projectSetting "PLUGIN_DESCRIPTION" "pluginDesc" ;;
    manufacturer <- projectSetting "PLUGIN_MANUFACTURER" "pluginManufacturer" ;;
    manufacturerCode <-
      projectSetting "PLUGIN_MANUFACTURER_CODE" "pluginManufacturerCode" ;;
    pluginCode <- projectSetting "PLUGIN_CODE" "pluginCode" ;;
    channelConfigs <-
      projectSetting "PLUGIN_CHANNEL_CONFIGURATIONS" "pluginChannelConfigs" ;;
    exportPrefix <-
      projectSetting "PLUGIN_AU_EXPORT_PREFIX" "pluginAUExportPrefix" ;;
    mainType <- projectSetting "PLUGIN_AU_MAIN_TYPE" "pluginAUMainType" ;;
    vstCategory <- projectSetting "VST_CATEGORY" "pluginVSTCategory" ;;
    Returns
      ("jucer_audio_plugin_settings(" ++ NL
       ++ "  " ++ onOff "BUILD_VST" "buildVST" ++ NL
       ++ "  " ++ onOff "BUILD_AUDIOUNIT" "buildAU" ++ NL
       ++ "  " ++ pluginName ++ NL
       ++ "  " ++ pluginDesc ++ NL
       ++ "  " ++ manufacturer ++ NL
       ++ "  " ++ manufacturerCode ++ NL
       ++ "  " ++ pluginCode ++ NL
       ++ "  " ++ channelConfigs ++ NL
       ++ "  " ++ onOff "PLUGIN_IS_A_SYNTH" "pluginIsSynth" ++ NL
       ++ "  " ++ onOff "PLUGIN_MIDI_INPUT" "pluginWantsMidiIn" ++ NL
       ++ "  " ++ onOff "PLUGIN_MIDI_OUTPUT" "pluginProducesMidiOut" ++ NL
       ++ "  " ++ onOff "MIDI_EFFECT_PLUGIN" "pluginIsMidiEffectPlugin" ++ NL
       ++ "  " ++ onOff "KEY_FOCUS" "pluginEditorRequiresKeys" ++ NL
       ++ "  " ++ exportPrefix ++ NL
       ++ "  " ++ mainType ++ NL
       ++ "  " ++ vstCategory ++ NL
       ++ ")" ++ NL
       ++ NL)
  else Returns "".

(** The allow-list [sdks] of the [XCODE_MAC] branch. *)
Definition sdks : list string :=
  ["10.5 SDK"; "10.6 SDK"; "10.7 SDK"; "10.8 SDK"; "10.9 SDK"; "10.10 SDK";
   "10.11 SDK"; "10.12 SDK"].

(** [std::find (sdks.begin(), sdks.end(), value) != sdks.end()]. *)
Definition inSdks (value : string) : bool :=
  existsb (fun sdk => (sdk =? value)%string) sdks.

(** The line written for the property [osxSDK]. *)
Definition osxBaseSdkVersion (configuration : ValueTree) : string :=
  let osxSDK := toString (getProperty configuration "osxSDK") in
  if (osxSDK =? "default")%string
  then "  OSX_BASE_SDK_VERSION " ++ Q ++ "Use Default" ++ Q ++ NL
  else if inSdks osxSDK
  then "  OSX_BASE_SDK_VERSION " ++ Q ++ osxSDK ++ Q ++ NL
  else "  # OSX_BASE_SDK_VERSION" ++ NL.

(** The line written for the property [osxCompatibility].  The count
    [length () - 4] is a [size_t]; it is computed only for a member of
    [sdks], all of which are longer than four characters. *)
Definition osxDeploymentTarget (configuration : ValueTree) : outcome string :=
  let osxCompatibility :=
    toString (getProperty configuration "osxCompatibility") in
  if (osxCompatibility =? "default")%string
  then Returns ("  OSX_DEPLOYMENT_TARGET " ++ Q ++ "Use Default" ++ Q ++ NL)
  else if inSdks osxCompatibility
  then
    stripped <-
      lift (substr osxCompatibility 0 (length osxCompatibility - 4)) ;;
    Returns ("  OSX_DEPLOYMENT_TARGET " ++ Q ++ stripped ++ Q ++ NL)
  else Returns ("  # OSX_DEPLOYMENT_TARGET" ++ NL).

(** The lines written when [exporter.getType ()] is [XCODE_MAC]. *)
Definition xcodeMacSettings (exporter configuration : ValueTree)
  : outcome string :=
  if (getType exporter =? "XCODE_MAC")%string
  then
    deploymentTarget <- osxDeploymentTarget configuration ;;
    Returns (osxBaseSdkVersion configuration ++ deploymentTarget)
  else Returns "".

Section Program.

(** *** The file system, as [main] observes it through [juce::File] *)

(** [XmlDocument::parse (juce::File{path})]; [None] is the null pointer. *)
Variable parse : string -> option XmlElement.
(** [juce::File{path}.getFileName ()]. *)
Variable getFileName : string -> string.
(** [juce::File{path}.getParentDirectory ()
      .getRelativePathFrom (File::getCurrentWorkingDirectory ())]. *)
Variable relativeParentDirectory : string -> string.
(** The lines [readLines] finds in the header
    [<directory of jucerFilePath>/<relativeModulePath>/<name>/<name>.h]. *)
Variable readLines : string -> string -> string -> list string.
(** For [jucerFilePath], [targetFolder] and [path]:
    [jucerFileDir.getChildFile (targetFolder).getChildFile (path)
      .getRelativePathFrom (jucerFileDir)]. *)
Variable relativePath : string -> string -> string -> string.

(** The block [Preamble]. *)
Definition preamble (jucerFileName : string) : string :=
  "# This file was generated by Jucer2CMake from " ++ jucerFileName ++ NL
  ++ NL
  ++ "cmake_minimum_required(VERSION 3.4)" ++ NL
  ++ NL
  ++ NL.

(** The block [include(Reprojucer)]. *)
Definition includeReprojucer (reprojucerFilePath : string) : string :=
  "list(APPEND CMAKE_MODULE_PATH " ++ Q
  ++ "${CMAKE_CURRENT_LIST_DIR}/"
  ++ replace (relativeParentDirectory reprojucerFilePath) backslash "/"%char
  ++ Q ++ ")" ++ NL
  ++ "include(Reprojucer)" ++ NL
  ++ NL
  ++ NL.

(** The block [get_filename_component()]. *)
Definition getFilenameComponent (escapedJucerFileName : string) : string :=
  "if(NOT DEFINED " ++ escapedJucerFileName ++ "_FILE)" ++ NL
  ++ "  message(FATAL_ERROR " ++ Q ++ escapedJucerFileName
  ++ "_FILE must be defined" ++ Q ++ ")" ++ NL
  ++ "endif()" ++ NL
  ++ NL
  ++ "get_filename_component(" ++ escapedJucerFileName ++ "_FILE" ++ NL
  ++ "  " ++ Q ++ "${" ++ escapedJucerFileName ++ "_FILE}" ++ Q
  ++ " ABSOLUTE" ++ NL
  ++ "  BASE_DIR " ++ Q ++ "${CMAKE_BINARY_DIR}" ++ Q ++ NL
  ++ ")" ++ NL
  ++ NL
  ++ NL.

(** The block [jucer_project_begin()]. *)
Definition projectBegin (jucerProject : ValueTree)
  (escapedJucerFileName : string) : outcome string :=
  projectId <- getSetting jucerProject "PROJECT_ID" "id" ;;
  Returns
    ("jucer_project_begin(" ++ NL
     ++ "  PROJECT_FILE " ++ Q ++ "${" ++ escapedJucerFileName ++ "_FILE}"
     ++ Q ++ NL
     ++ "  " ++ projectId ++ NL
     ++ ")" ++ NL
     ++ NL).

(** The block [jucer_project_files()], writing after [out]. *)
Definition projectFiles (jucerProject : ValueTree) (out : string) : string :=
  snd (processGroup writeFileGroups
         (getChildWithName jucerProject "MAINGROUP") ([], out)).

(** What one line of a module header contributes. *)
Definition moduleHeaderLine (modulesOptions : ValueTree) (line : string)
  : string :=
  if startsWith line "/** Config: "
  then
    let moduleOption := drop 12 line in
    let optionValue := getProperty modulesOptions moduleOption in
    if var_eq_string optionValue "enabled"
    then "  " ++ moduleOption ++ " ON" ++ NL
    else if var_eq_string optionValue "disabled"
    then "  " ++ moduleOption ++ " OFF" ++ NL
    else "  # " ++ moduleOption ++ NL
  else "".

(** The body of the loop over [moduleNames]. *)
Definition projectModule (jucerProject : ValueTree) (jucerFilePath : string)
  (modulePaths : ValueTree) (moduleName : string) : string :=
  let relativeModulePath :=
    toString
      (getProperty
         (getChildWithProperty modulePaths "id" (varString moduleName))
         "path") in
  let moduleHeaderLines :=
    readLines jucerFilePath relativeModulePath moduleName in
  let modulesOptions := getChildWithName jucerProject "JUCEOPTIONS" in
  "jucer_project_module(" ++ NL
  ++ "  " ++ moduleName ++ NL
  ++ "  PATH " ++ Q ++ relativeModulePath ++ Q ++ NL
  ++ String.concat "" (map (moduleHeaderLine modulesOptions) moduleHeaderLines)
  ++ ")" ++ NL
  ++ NL.

(** The block [jucer_project_module()]. *)
Definition projectModules (jucerProject : ValueTree) (jucerFilePath : string)
  : string :=
  let moduleNames :=
    map (fun module => toString (getProperty module "id"))
      (getChildren (getChildWithName jucerProject "MODULES")) in
  let modulePaths :=
    getChildWithName
      (getChild (getChildWithName jucerProject "EXPORTFORMATS") 0)
      "MODULEPATHS" in
  String.concat ""
    (map (projectModule jucerProject jucerFilePath modulePaths) moduleNames).

(** The loop that fills [pathsRelativeToJucerFileDir]. *)
Definition relativeHeaderPaths (jucerFilePath targetFolder : string)
  (paths : list string) : list string :=
  fold_left
    (fun pathsRelativeToJucerFileDir path =>
       if (path =? "")%string
       then pathsRelativeToJucerFileDir
       else (pathsRelativeToJucerFileDir
             ++ [relativePath jucerFilePath targetFolder path])%list)
    paths [].

(** The line written for the property [headerPath]. *)
Definition headerSearchPaths (jucerFilePath : string)
  (exporter configuration : ValueTree) : outcome string :=
  let headerPath := toString (getProperty configuration "headerPath") in
  if (headerPath =? "")%string
  then Returns ("  # HEADER_SEARCH_PATHS" ++ NL)
  else
    let targetFolder := toString (getProperty exporter "targetFolder") in
    paths <- split NL headerPath ;;
    escaped <-
      escape BS
        (join NL (relativeHeaderPaths jucerFilePath targetFolder paths)) ;;
    Returns ("  HEADER_SEARCH_PATHS " ++ Q ++ escaped ++ Q ++ NL).

(** The body of the loop over the configurations of an exporter. *)
Definition exportTargetConfiguration (jucerFilePath displayName : string)
  (exporter configuration : ValueTree) : outcome string :=
  headerPaths <- headerSearchPaths jucerFilePath exporter configuration ;;
  defines <- getSetting configuration "PREPROCESSOR_DEFINITIONS" "defines" ;;
  xcodeMac <- xcodeMacSettings exporter configuration ;;
  Returns
    ("jucer_export_target_configuration(" ++ NL
     ++ "  " ++ Q ++ displayName ++ Q ++ NL
     ++ "  NAME " ++ Q ++ toString (getProperty configuration "name") ++ Q
     ++ NL
     ++ headerPaths
     ++ "  " ++ defines ++ NL
     ++ xcodeMac
     ++ ")" ++ NL
     ++ NL).

(** [supportedExporters]: tag, display name, default VST3 SDK folder. *)
Definition supportedExporters : list (string * string * string) :=
  [("XCODE_MAC", "Xcode (MacOSX)", "~/SDKs/VST_SDK/VST3_SDK");
   ("VS2015", "Visual Studio 2015", "c:\SDKs\VST_SDK\VST3_SDK");
   ("VS2013", "Visual Studio 2013", "c:\SDKs\VST_SDK\VST3_SDK")].

(** The argument [VST3_SDK_FOLDER], written when the project uses
    [juce_audio_processors] and enables [JUCE_PLUGINHOST_VST3]. *)
Definition vst3SdkFolder (jucerProject exporter : ValueTree)
  (defaultFolder : string) : outcome string :=
  if isValid
       (getChildWithProperty (getChildWithName jucerProject "MODULES") "id"
          (varString "juce_audio_processors"))
     && var_eq_string
          (getProperty (getChildWithName jucerProject "JUCEOPTIONS")
             "JUCE_PLUGINHOST_VST3")
          "enabled"
  then
    let vst3Folder := toString (getProperty exporter "vst3Folder") in
    escaped <-
      escape BS
        (if (vst3Folder =? "")%string then defaultFolder else vst3Folder) ;;
    Returns ("  VST3_SDK_FOLDER " ++ Q ++ escaped ++ Q ++ NL)
  else Returns "".

(** The body of the loop over [supportedExporters]. *)
Definition exportTarget (jucerProject : ValueTree) (jucerFilePath : string)
  (element : string * string * string) : outcome string :=
  let '(tag, displayName, defaultFolder) := element in
  let exporter :=
    getChildWithName (getChildWithName jucerProject "EXPORTFORMATS") tag in
  if isValid exporter
  then
    vst3 <- vst3SdkFolder jucerProject exporter defaultFolder ;;
    extraDefs <-
      getSetting exporter "EXTRA_PREPROCESSOR_DEFINITIONS" "extraDefs" ;;
    extraCompilerFlags <-
      getSetting exporter "EXTRA_COMPILER_FLAGS" "extraCompilerFlags" ;;
    configurations <-
      forEach (exportTargetConfiguration jucerFilePath displayName exporter)
        (getChildren (getChildWithName exporter "CONFIGURATIONS")) ;;
    Returns
      ("jucer_export_target(" ++ NL
       ++ "  " ++ Q ++ displayName ++ Q ++ NL
       ++ vst3
       ++ "  " ++ extraDefs ++ NL
       ++ "  " ++ extraCompilerFlags ++ NL
       ++ ")" ++ NL
       ++ NL
       ++ configurations)
  else Returns "".

Definition usage : string :=
  "usage: Jucer2CMake <jucer_project_file> <Reprojucer.cmake_file>" ++ NL.

(** Everything [main] writes to [out] once the project is known to be
    valid. *)
Definition writeCMakeLists (jucerProject : ValueTree)
  (jucerFilePath reprojucerFilePath : string) : outcome string :=
  let jucerFileName := getFileName jucerFilePath in
  let escapedJucerFileName := escapeFileName jucerFileName in
  let out := preamble jucerFileName in
  let out := out ++ includeReprojucer reprojucerFilePath in
  let out := out ++ getFilenameComponent escapedJucerFileName in
  begin <- projectBegin jucerProject escapedJucerFileName ;;
  let out := out ++ begin in
  settings <- projectSettings jucerProject ;;
  let out := out ++ settings in
  pluginSettings <- audioPluginSettings jucerProject ;;
  let out := out ++ pluginSettings in
  let out := projectFiles jucerProject out in
  let out := out ++ projectModules jucerProject jucerFilePath in
  targets <- forEach (exportTarget jucerProject jucerFilePath)
               supportedExporters ;;
  let out := out ++ targets in
  Returns (out ++ "jucer_project_end()" ++ NL).

(** [main]; [argv] holds the [argc] command-line words, the program name
    first. *)
Definition main (argv : list string) : outcome ProcessResult :=
  if negb (List.length argv =? 3)%nat
  then Returns (mkResult usage None 1)
  else
    jucerFilePath <- lift (nth_error argv 1) ;;
    reprojucerFilePath <- lift (nth_error argv 2) ;;
    let invalid :=
      mkResult (printError (jucerFilePath ++ " is not a valid Jucer project."))
        None 1 in
    match parse jucerFilePath with
    | None => Returns invalid
    | Some xml =>
        if negb (hasTagName xml "JUCERPROJECT")
        then Returns invalid
        else
          let jucerProject := fromXml xml in
          if negb (hasType jucerProject "JUCERPROJECT")
          then Returns invalid
          else
            out <- writeCMakeLists jucerProject jucerFilePath
                     reprojucerFilePath ;;
            Returns (mkResult "" (Some out) 0)
    end.

End Program.


(** ** [writeJuce6CMakeLists] of [juce6.hpp] *)

(** [XmlElement::getStringAttribute]: the value of the attribute, the
    empty string when the element has no such attribute. *)
Definition getStringAttribute (x : XmlElement) (name : string) : string :=
  match x with
  | Xml _ attributes _ =>
      match List.find (fun kv => (fst kv =? name)%string) attributes with
      | Some kv => snd kv
      | None => ""
      end
  end.

Section Juce6.

(** [LineWriter] is declared in [utils.hpp]; a call [wLn (a, b, ...)] is
    kept as the list of its arguments, and [Out] is what the writer
    writes to. *)
Variable Out : Type.
Variable wLn : list string -> Out -> Out.

(** The lambda that chooses [juceAddFunction]. *)
Definition juceAddFunction (projectType : string) : string :=
  if (projectType =? "guiapp")%string then "juce_add_gui_app"
  else if (projectType =? "consoleapp")%string then "juce_add_console_app"
  else if (projectType =? "audioplug")%string then "juce_add_plugin"
  else "".

Definition writeJuce6CMakeLists (jucerProject : XmlElement) (out : Out)
  : Out :=
  let projectType := getStringAttribute jucerProject "projectType" in
  let jucerProjectName := getStringAttribute jucerProject "name" in
  (* Preamble *)
  let cmakeVersion :=
    if (projectType =? "audioplug")%string then "3.15" else "3.12" in
  let out := wLn [] out in
  let out := wLn ["cmake_minimum_required(VERSION "; cmakeVersion; ")"] out in
  let out := wLn [] out in
  let out := wLn ["project(" ++ Q; jucerProjectName; Q ++ ")"] out in
  let out := wLn [] out in
  let out := wLn [] out in
  let out := wLn ["find_package(JUCE CONFIG REQUIRED)"] out in
  let out := wLn [] out in
  let out := wLn [] out in
  let targetName := jucerProjectName in
  (* juce_add_{console_app,gui_app,plugin} *)
  let out := wLn [juceAddFunction projectType; "("; targetName] out in
  let out := wLn ["  VERSION " ++ Q ++ "1.0.0" ++ Q] out in
  let out :=
    if (projectType =? "audioplug")%string
    then wLn ["  FORMATS " ++ Q ++ "AU" ++ Q ++ " " ++ Q ++ "VST3" ++ Q ++ " "
              ++ Q ++ "Standalone" ++ Q] out
    else out in
  let out := wLn [")"] out in
  let out := wLn [] out in
  (* juce_generate_juce_header *)
  wLn ["juce_generate_juce_header("; targetName; ")"] out.

End Juce6.

Arguments writeJuce6CMakeLists {Out} wLn jucerProject out.
(** * Specification-side definitions *)

(** [escaped chars s]: [s] with a backslash put before every character that
    occurs in [chars]. *)
Fixpoint escaped (chars s : string) : string :=
  match s with
  | EmptyString => EmptyString
  | String c s' =>
      if mem c chars
      then String backslash (String c (escaped chars s'))
      else String c (escaped chars s')
  end.

(** Whether some character of [s] occurs in [chars]. *)
Fixpoint hasSpecial (chars s : string) : bool :=
  match s with
  | EmptyString => false
  | String c s' => mem c chars || hasSpecial chars s'
  end.

(** Reads [s] from the left the way a CMake quoted argument is read: a
    backslash and the character after it form one escape sequence.  The
    result tells whether every double quote of [s] is the second character
    of such a sequence, that is, comes right after one backslash that is
    not itself escaped. *)
Fixpoint quotesEscaped (s : string) : bool :=
  match s with
  | EmptyString => true
  | String c s' =>
      if (c =? backslash)%char
      then match s' with
           | EmptyString => true
           | String _ s'' => quotesEscaped s''
           end
      else if (c =? dquote)%char then false
      else quotesEscaped s'
  end.

(** [s] cut at every occurrence of the character [c]. *)
Fixpoint splitOn (c : ascii) (s : string) : list string :=
  match s with
  | EmptyString => [EmptyString]
  | String d s' =>
      if (d =? c)%char
      then EmptyString :: splitOn c s'
      else match splitOn c s' with
           | [] => [String d EmptyString]
           | token :: tokens => String d token :: tokens
           end
  end.

(** ** The calls of [writeFileGroups] *)

(** One call of [writeFileGroups]: the full group name and the three
    vectors it was given. *)
Record Call : Type := mkCall {
  callName : string;
  callPending : Pending
}.

(** A sink that keeps the calls instead of writing text. *)
Definition record (fullGroupName : string)
  (files doNotCompile resources : list string) (log : list Call)
  : list Call :=
  (log ++ [mkCall fullGroupName (mkPending files doNotCompile resources)])%list.

(** The calls [processGroup] makes for [group] when [groupNames] holds
    [ancestors] on entry. *)
Definition calls (ancestors : list string) (group : ValueTree) : list Call :=
  snd (processGroup record group (ancestors, [])).

(** The calls made by the loop over [children], and the vectors left. *)
Fixpoint childrenCalls (path : list string) (children : list ValueTree)
  (acc : Pending) : Pending * list Call :=
  match children with
  | [] => (acc, [])
  | child :: rest =>
      if hasType child "FILE"
      then childrenCalls path rest (addFile child acc)
      else
        let '(acc', log) := childrenCalls path rest noPending in
        (acc', (mkCall (join "/" path) acc :: calls path child ++ log)%list)
  end.

(** Makes the calls of [log] in order on the sink [write]. *)
Definition replay {Out : Type}
  (write : string -> list string -> list string -> list string -> Out -> Out)
  (log : list Call) (out : Out) : Out :=
  fold_left
    (fun out call =>
       write (callName call) (filePaths (callPending call))
         (doNotCompileFilePaths (callPending call))
         (resourcePaths (callPending call)) out)
    log out.

(** [processGroup] leaves [groupNames] as it found it and makes the calls
    of [calls], whatever the sink. *)
Definition Replays {Out : Type}
  (write : string -> list string -> list string -> list string -> Out -> Out)
  (group : ValueTree) : Prop :=
  forall (ancestors : list string) (out : Out),
    processGroup write group (ancestors, out)
    = (ancestors, replay write (calls ancestors group) out).

(** The same for the sink that keeps the calls. *)
Definition Records (group : ValueTree) : Prop :=
  forall (ancestors : list string) (log : list Call),
    processGroup record group (ancestors, log)
    = (ancestors, (log ++ calls ancestors group)%list).

(** The text of one call, and of all the calls made for a group. *)
Definition fileGroupsText (fullGroupName : string) (acc : Pending) : string :=
  writeFileGroups fullGroupName (filePaths acc) (doNotCompileFilePaths acc)
    (resourcePaths acc) "".

Definition emitted (ancestors : list string) (group : ValueTree) : string :=
  snd (processGroup writeFileGroups group (ancestors, "")).

Definition groupName (group : ValueTree) : string :=
  toString (getProperty group "name").

(** The vectors after the [FILE] children [files] have been added. *)
Definition pendingOf (files : list ValueTree) (acc : Pending) : Pending :=
  fold_left (fun acc file => addFile file acc) files acc.

(** [groupAt root path group]: [group] is [root] or a group nested in it,
    and [path] lists the group names from [root] down to [group]. *)
Inductive groupAt : ValueTree -> list string -> ValueTree -> Prop :=
| groupAt_here (root : ValueTree) : groupAt root [groupName root] root
| groupAt_below (root child : ValueTree) (path : list string)
    (group : ValueTree) :
    In child (getChildren root) ->
    hasType child "FILE" = false ->
    groupAt child path group ->
    groupAt root (groupName root :: path) group.

(** Every path of the call is the [file] property of a [FILE] child of
    [group]. *)
Definition filesOf (group : ValueTree) (acc : Pending) : Prop :=
  forall path : string,
    In path (filePaths acc ++ doNotCompileFilePaths acc ++ resourcePaths acc)%list ->
    exists file,
      In file (getChildren group) /\ hasType file "FILE" = true
      /\ toString (getProperty file "file") = path.

(** The lines of a block: each path between quotes, after [prefix]. *)
Definition quotedLines (prefix : string) (paths : list string) : string :=
  String.concat ""
    (map (fun path => "  " ++ Q ++ prefix ++ path ++ Q ++ NL) paths).

(** A call made for [root] is keyed by the names on the way from the first
    ancestor down to a group under [root], and carries files of that
    group. *)
Definition keyedByPath (ancestors : list string) (root : ValueTree)
  (call : Call) : Prop :=
  exists (path : list string) (group : ValueTree),
    groupAt root path group
    /\ callName call = String.concat "/" (ancestors ++ path)
    /\ filesOf group (callPending call).

(** ** The text of a setting *)

(** The argument [getSetting] builds: the tag and the value between quotes,
    each quote of the value escaped, when the property is present and not
    empty; the tag commented out otherwise. *)
Definition settingText (valueTree : ValueTree) (cmakeTag property : string)
  : string :=
  let value := toString (getProperty valueTree property) in
  if hasProperty valueTree property && negb (value =? "")%string
  then cmakeTag ++ " " ++ Q ++ escaped Q value ++ Q
  else "# " ++ cmakeTag.

(** A computation that completes normally. *)
Definition returns {A : Type} (m : outcome A) : Prop :=
  exists a : A, m = Returns a.

(** [occursIn piece text]: [piece] is a part of [text]. *)
Definition occursIn (piece text : string) : Prop :=
  exists before after : string, text = before ++ piece ++ after.

(** ** The blocks of a group, by its paths *)

(** The calls for the children of a group whose full name is
    [fullGroupName]: the files met are gathered; a nested group closes the
    gathered files into one call under [fullGroupName], gives its own
    calls, and the gathering starts again; the end of the children closes
    the last call. *)
Fixpoint childBlocks (nested : ValueTree -> list Call)
  (fullGroupName : string) (children : list ValueTree) (acc : Pending)
  : list Call :=
  match children with
  | [] => [mkCall fullGroupName acc]
  | child :: rest =>
      if hasType child "FILE"
      then childBlocks nested fullGroupName rest (addFile child acc)
      else
        (mkCall fullGroupName acc
         :: nested child ++ childBlocks nested fullGroupName rest noPending)%list
  end.

(** The calls for [group] under the groups named [ancestors], from the
    outermost one: every call of the group itself is keyed by the names of
    [ancestors] and its own name joined by [/], and the groups nested in
    it have it as one more ancestor. *)
Fixpoint blocksOf (group : ValueTree) (ancestors : list string) : list Call :=
  match group with
  | VT _ _ children =>
      let path := (ancestors ++ [groupName group])%list in
      childBlocks (fun child => blocksOf child path)
        (String.concat "/" path) children noPending
  end.

(** Reads a value from the left, a backslash taking the character after it
    with it, and tells whether no backslash takes a double quote. *)
Fixpoint noEscapedQuote (s : string) : bool :=
  match s with
  | EmptyString => true
  | String c s' =>
      if (c =? backslash)%char
      then match s' with
           | EmptyString => true
           | String d s'' =>
               if (d =? dquote)%char then false else noEscapedQuote s''
           end
      else noEscapedQuote s'
  end.

(** ** Further specification-side definitions *)

(** Reads [s] from the left and drops every backslash that stands right
    before a character of [chars]. *)
Fixpoint unescape (chars s : string) : string :=
  match s with
  | EmptyString => EmptyString
  | String c s' =>
      if (c =? backslash)%char
      then match s' with
           | EmptyString => String c EmptyString
           | String d s'' =>
               if mem d chars
               then String d (unescape chars s'')
               else String c (unescape chars s')
           end
      else String c (unescape chars s')
  end.

(** The number of characters of [s] that occur in [chars]. *)
Fixpoint countSpecial (chars s : string) : nat :=
  match s with
  | EmptyString => 0
  | String c s' =>
      (if mem c chars then 1 else 0) + countSpecial chars s'
  end.

(** What the [FILE] nodes under [group] contribute, in document order,
    depth first. *)
Fixpoint collect (contribution : ValueTree -> list string)
  (group : ValueTree) : list string :=
  match group with
  | VT _ _ children =>
      flat_map
        (fun child =>
           if hasType child "FILE" then contribution child
           else collect contribution child)
        children
  end.

Definition filePath (file : ValueTree) : string :=
  toString (getProperty file "file").

Definition isResource (file : ValueTree) : bool :=
  (toInt (getProperty file "resource") =? 1)%Z.

(** A file that is not a resource, has the extension [cpp] and a [compile]
    property that reads as 0. *)
Definition isExcluded (file : ValueTree) : bool :=
  negb (isResource file)
  && hasFileExtension (filePath file) "cpp"
  && (toInt (getProperty file "compile") =? 0)%Z.

(** The paths of the source files, of the excluded files and of the
    resources under a group. *)
Definition sourcePaths : ValueTree -> list string :=
  collect (fun file => if isResource file then [] else [filePath file]).

Definition excludedPaths : ValueTree -> list string :=
  collect (fun file => if isExcluded file then [filePath file] else []).

Definition resourcePathsUnder : ValueTree -> list string :=
  collect (fun file => if isResource file then [filePath file] else []).

(** Whether every character of [s] is [c]. *)
Fixpoint allChar (c : ascii) (s : string) : bool :=
  match s with
  | EmptyString => true
  | String d s' => (d =? c)%char && allChar c s'
  end.

(** Whether every character of [s] is a letter, a digit or an
    underscore. *)
Fixpoint isIdentifier (s : string) : bool :=
  match s with
  | EmptyString => true
  | String c s' => (isAlphaOrDigit c || (c =? "_")%char) && isIdentifier s'
  end.

(** A sink for [writeJuce6CMakeLists] that keeps the calls of [wLn]. *)
Definition keepLine (arguments : list string) (log : list (list string))
  : list (list string) :=
  (log ++ [arguments])%list.

(** The paths that the calls of [log] carry in one of their vectors. *)
Definition vectorOfCalls (vector : Pending -> list string) (log : list Call)
  : list string :=
  flat_map (fun call => vector (callPending call)) log.

(** The files not to compile are among the files, and have the extension
    [cpp]. *)
Definition excludedAmongFiles (acc : Pending) : Prop :=
  incl (doNotCompileFilePaths acc) (filePaths acc)
  /\ Forall (fun path => hasFileExtension path "cpp" = true)
       (doNotCompileFilePaths acc).

(** * Lemmas on strings *)

Lemma append_assoc (a b c : string) : (a ++ b) ++ c = a ++ b ++ c.
Proof. induction a as [|x a IH]; simpl; [reflexivity | now rewrite IH]. Qed.

Lemma append_nil_r (a : string) : a ++ "" = a.
Proof. induction a as [|x a IH]; simpl; [reflexivity | now rewrite IH]. Qed.

Lemma length_append (a b : string) : length (a ++ b) = length a + length b.
Proof. induction a as [|x a IH]; simpl; [reflexivity | now rewrite IH]. Qed.

Lemma drop_app_length (a b : string) : drop (length a) (a ++ b) = b.
Proof. induction a as [|x a IH]; simpl; [now destruct b | exact IH]. Qed.

Lemma take_app_length (a b : string) : take (length a) (a ++ b) = a.
Proof. induction a as [|x a IH]; simpl; [reflexivity | now rewrite IH]. Qed.

Lemma drop_0 (s : string) : drop 0 s = s.
Proof. now destruct s. Qed.

Lemma length_zero (s : string) : length s = 0 -> s = "".
Proof. destruct s; [reflexivity | discriminate]. Qed.

Lemma leb_length_app (a b : string) :
  (length a <=? length (a ++ b))%nat = true.
Proof. rewrite length_append. apply Nat.leb_le. lia. Qed.

(** * [escape] *)

Lemma mem_first_of_None (chars s : string) :
  first_of chars s = None -> escaped chars s = s.
Proof.
  induction s as [|c s IH]; simpl; [reflexivity|].
  destruct (mem c chars); [discriminate|].
  destruct (first_of chars s); [discriminate|].
  intros _. now rewrite IH.
Qed.

Lemma first_of_Some (chars s : string) (k : nat) :
  first_of chars s = Some k ->
  exists mid c rest,
    s = mid ++ String c rest /\ length mid = k /\ mem c chars = true
    /\ hasSpecial chars mid = false.
Proof.
  revert k. induction s as [|c s IH]; simpl; intros k H; [discriminate|].
  destruct (mem c chars) eqn:Hc.
  - injection H as <-. now exists "", c, s.
  - destruct (first_of chars s) as [k'|]; [|discriminate].
    injection H as <-.
    destruct (IH k' eq_refl) as (mid & d & rest & -> & <- & Hd & Hmid).
    exists (String c mid), d, rest. simpl. now rewrite Hc.
Qed.

Lemma escaped_plain (chars s : string) :
  hasSpecial chars s = false -> escaped chars s = s.
Proof.
  induction s as [|c s IH]; simpl; [reflexivity|].
  destruct (mem c chars); [discriminate|]. simpl.
  intros H. now rewrite IH.
Qed.

Lemma escaped_app (chars a b : string) :
  escaped chars (a ++ b) = escaped chars a ++ escaped chars b.
Proof.
  induction a as [|c a IH]; simpl; [reflexivity|].
  destruct (mem c chars); simpl; now rewrite IH.
Qed.

Lemma find_first_of_app (chars done rest : string) :
  find_first_of (done ++ rest) chars (length done)
  = option_map (Nat.add (length done)) (first_of chars rest).
Proof. unfold find_first_of. now rewrite drop_app_length. Qed.

Lemma insert_app (a b t : string) :
  insert (a ++ b) (length a) t = Some (a ++ t ++ b).
Proof.
  unfold insert. rewrite leb_length_app.
  now rewrite take_app_length, drop_app_length.
Qed.

(** The loop of [escape], started at the end of the part [done] it has
    dealt with, returns [done] followed by the escaped rest. *)
Lemma escape_loop_app (chars : string) (fuel : nat) :
  forall done rest : string,
    length rest < fuel ->
    escape_loop fuel chars (done ++ rest) (length done)
    = Returns (done ++ escaped chars rest).
Proof.
  induction fuel as [|fuel IH]; intros done rest Hfuel; [lia|].
  simpl. rewrite find_first_of_app.
  destruct (first_of chars rest) as [k|] eqn:Hk; simpl.
  - destruct (first_of_Some _ _ _ Hk) as (mid & c & rest' & -> & <- & Hc & Hmid).
    rewrite <- length_append, <- append_assoc, insert_app. simpl.
    replace ((done ++ mid) ++ String backslash (String c rest'))
      with ((done ++ mid ++ String backslash (String c "")) ++ rest')
      by (now rewrite !append_assoc).
    replace (length (done ++ mid) + 2)
      with (length (done ++ mid ++ String backslash (String c "")))
      by (rewrite !length_append; simpl; lia).
    rewrite IH.
    + rewrite escaped_app, (escaped_plain _ _ Hmid). simpl. rewrite Hc.
      now rewrite !append_assoc.
    + rewrite length_append in Hfuel. simpl in Hfuel. lia.
  - now rewrite (mem_first_of_None _ _ Hk).
Qed.

(** [escape] always returns, and returns the escaped string. *)
Lemma escape_returns (chars value : string) :
  escape chars value = Returns (escaped chars value).
Proof.
  unfold escape. apply (escape_loop_app chars (S (length value)) "" value). lia.
Qed.

(** More fuel does not change the result. *)
Lemma escape_loop_fuel (chars value : string) (fuel : nat) :
  length value < fuel ->
  escape_loop fuel chars value 0 = Returns (escaped chars value).
Proof. intros H. now apply (escape_loop_app chars fuel "" value). Qed.

Lemma escaped_length (chars s : string) :
  length s <= length (escaped chars s).
Proof.
  induction s as [|c s IH]; simpl; [lia|].
  destruct (mem c chars); simpl; lia.
Qed.

Lemma escaped_longer (chars s : string) :
  hasSpecial chars s = true -> length s < length (escaped chars s).
Proof.
  induction s as [|c s IH]; simpl; [discriminate|].
  destruct (mem c chars) eqn:Hc; simpl; intros H.
  - pose proof (escaped_length chars s). lia.
  - apply IH in H. lia.
Qed.

Lemma hasSpecial_escaped (chars s : string) :
  hasSpecial chars (escaped chars s) = false -> hasSpecial chars s = false.
Proof.
  induction s as [|c s IH]; simpl; [reflexivity|].
  destruct (mem c chars) eqn:Hc; simpl.
  - rewrite Hc. now rewrite orb_true_r.
  - rewrite Hc. exact IH.
Qed.

Lemma mem_differs (chars : string) (c d : ascii) :
  mem c chars = false -> mem d chars = true -> (c =? d)%char = false.
Proof.
  intros Hc Hd. destruct (Ascii.eqb_spec c d) as [->|]; [congruence | reflexivity].
Qed.

Lemma quotesEscaped_escaped (chars v : string) :
  mem dquote chars = true ->
  mem backslash chars = true \/ mem backslash v = false ->
  quotesEscaped (escaped chars v) = true.
Proof.
  intros Hq. induction v as [|c v IH]; intros Hb; [reflexivity|].
  assert (Hv : mem backslash chars = true \/ mem backslash v = false).
  { destruct Hb as [Hb|Hb]; [now left | right].
    simpl in Hb. now apply orb_false_elim in Hb. }
  cbn [escaped]. destruct (mem c chars) eqn:Hc.
  - cbn [quotesEscaped]. rewrite Ascii.eqb_refl. now apply IH.
  - cbn [quotesEscaped].
    assert (Hcb : (c =? backslash)%char = false).
    { destruct Hb as [Hb|Hb]; [now apply (mem_differs chars)|].
      simpl in Hb. apply orb_false_elim in Hb.
      rewrite Ascii.eqb_sym. tauto. }
    rewrite Hcb, (mem_differs chars c dquote Hc Hq). now apply IH.
Qed.

(** * [join] and [split] *)

Lemma concat_cons_app (sep a b : string) (l : list string) :
  String.concat sep ((a ++ b) :: l) = a ++ String.concat sep (b :: l).
Proof. destruct l; simpl; [reflexivity | now rewrite append_assoc]. Qed.

Lemma fold_join (sep : string) (rest : list string) :
  forall first : string,
    fold_left (fun sum elm => (sum ++ sep) ++ elm) rest first
    = String.concat sep (first :: rest).
Proof.
  induction rest as [|x rest IH]; intros first; [reflexivity|].
  cbn [fold_left]. rewrite IH, append_assoc, concat_cons_app.
  now rewrite concat_cons_app.
Qed.

(** [join] is the usual concatenation with a separator. *)
Lemma join_concat (sep : string) (elements : list string) :
  join sep elements = String.concat sep elements.
Proof. destruct elements; [reflexivity | apply fold_join]. Qed.

Lemma prefix_app (p s : string) :
  prefix p s = true -> exists rest, s = p ++ rest.
Proof.
  revert s. induction p as [|c p IH]; intros s H; [now exists s|].
  destruct s as [|d s]; [discriminate|]. simpl in H.
  destruct (ascii_dec c d) as [->|]; [|discriminate].
  destruct (IH s H) as [rest ->]. now exists rest.
Qed.

Lemma prefix_nil (s : string) : prefix "" s = true.
Proof. now destruct s. Qed.

Lemma occurrence_Some (sep s : string) (k : nat) :
  occurrence sep s = Some k ->
  exists token rest, s = token ++ sep ++ rest /\ length token = k.
Proof.
  revert k. induction s as [|c s IH]; intros k H.
  - cbn [occurrence] in H. destruct (prefix sep "") eqn:Hp; [|discriminate].
    injection H as <-. destruct (prefix_app _ _ Hp) as [rest Hrest].
    now exists "", rest.
  - cbn [occurrence] in H. destruct (prefix sep (String c s)) eqn:Hp.
    + injection H as <-. destruct (prefix_app _ _ Hp) as [rest Hrest].
      now exists "", rest.
    + destruct (occurrence sep s) as [k'|]; [|discriminate].
      injection H as <-.
      destruct (IH k' eq_refl) as (token & rest & -> & <-).
      now exists (String c token), rest.
Qed.

Lemma find_app (sep done rest : string) :
  find (done ++ rest) sep (length done)
  = option_map (Nat.add (length done)) (occurrence sep rest).
Proof. unfold find. now rewrite leb_length_app, drop_app_length. Qed.

Lemma substr_app (done token rest : string) :
  substr (done ++ token ++ rest) (length done) (length token) = Some token.
Proof.
  unfold substr. now rewrite leb_length_app, drop_app_length, take_app_length.
Qed.

Lemma substr_from_app (done rest : string) :
  substr_from (done ++ rest) (length done) = Some rest.
Proof. unfold substr_from. now rewrite leb_length_app, drop_app_length. Qed.

(** The loop of [split], started at the end of the part [done] it has cut
    into [tokens], returns as soon as the fuel exceeds the length of the
    rest: it adds at least one token, the same for every such fuel, and
    the added tokens joined by [sep] are the rest of the value. *)
Lemma split_loop_app (sep : string) :
  sep <> "" ->
  forall (n : nat) (rest : string),
    length rest <= n ->
    exists added,
      added <> [] /\ String.concat sep added = rest
      /\ forall (fuel : nat) (done : string) (tokens : list string),
          length rest < fuel ->
          split_loop fuel sep (done ++ rest) (length done) tokens
          = Returns (tokens ++ added)%list.
Proof.
  intros Hsep.
  assert (Hlen : length sep <> 0) by (intros H0; now apply length_zero in H0).
  induction n as [|n IH]; intros rest Hn;
    destruct (occurrence sep rest) as [k|] eqn:Hk.
  - destruct (occurrence_Some _ _ _ Hk) as (token & rest' & -> & _).
    rewrite !length_append in Hn. lia.
  - exists [rest]. split; [discriminate|]. split; [reflexivity|].
    intros [|fuel] done tokens Hfuel; [lia|].
    cbn [split_loop]. rewrite find_app, Hk. cbn [option_map].
    now rewrite substr_from_app.
  - destruct (occurrence_Some _ _ _ Hk) as (token & rest' & -> & <-).
    rewrite !length_append in Hn.
    destruct (IH rest') as (added & Hadded & <- & Hloop); [lia|].
    exists (token :: added). split; [discriminate|].
    split; [destruct added; [congruence | reflexivity]|].
    intros [|fuel] done tokens Hfuel; [lia|].
    cbn [split_loop]. rewrite find_app, Hk. cbn [option_map].
    replace (length done + length token - length done) with (length token) by lia.
    rewrite substr_app. cbn [lift bind].
    replace (done ++ token ++ sep ++ String.concat sep added)
      with ((done ++ token ++ sep) ++ String.concat sep added)
      by (now rewrite !append_assoc).
    replace (length done + length token + length sep)
      with (length (done ++ token ++ sep)) by (rewrite !length_append; lia).
    rewrite Hloop; [now rewrite <- app_assoc|].
    rewrite !length_append in Hfuel. lia.
  - exists [rest]. split; [discriminate|]. split; [reflexivity|].
    intros [|fuel] done tokens Hfuel; [lia|].
    cbn [split_loop]. rewrite find_app, Hk. cbn [option_map].
    now rewrite substr_from_app.
Qed.

(** With the empty separator [find] succeeds at [start] and [start] does not
    move: the loop is still running when any amount of fuel is used up. *)
Lemma split_loop_empty_sep (fuel : nat) :
  forall (done rest : string) (tokens : list string),
    split_loop fuel "" (done ++ rest) (length done) tokens = OutOfFuel.
Proof.
  induction fuel as [|fuel IH]; intros done rest tokens; [reflexivity|].
  cbn [split_loop]. rewrite find_app.
  replace (occurrence "" rest) with (Some 0) by (now destruct rest).
  cbn [option_map]. rewrite !Nat.add_0_r, Nat.sub_diag.
  pose proof (substr_app done "" rest) as Hs. cbn [length append] in Hs.
  rewrite Hs. cbn [lift bind]. apply IH.
Qed.

Lemma occurrence_char (c : ascii) (s : string) :
  match occurrence (String c "") s with
  | None => splitOn c s = [s]
  | Some k =>
      exists token rest,
        s = token ++ String c rest /\ length token = k
        /\ splitOn c s = token :: splitOn c rest
  end.
Proof.
  induction s as [|d s IH]; [reflexivity|].
  cbn [occurrence prefix splitOn].
  destruct (ascii_dec c d) as [->|Hcd].
  - rewrite prefix_nil, Ascii.eqb_refl. now exists "", s.
  - assert (Hdc : (d =? c)%char = false) by (apply Ascii.eqb_neq; congruence).
    rewrite Hdc. destruct (occurrence (String c "") s) as [k|]; cbn [option_map].
    + destruct IH as (token & rest & -> & <- & ->).
      now exists (String d token), rest.
    + now rewrite IH.
Qed.

(** For a separator of one character the loop cuts the rest of the value
    at every occurrence of it. *)
Lemma split_loop_char (c : ascii) (fuel : nat) :
  forall (done rest : string) (tokens : list string),
    length rest < fuel ->
    split_loop fuel (String c "") (done ++ rest) (length done) tokens
    = Returns (tokens ++ splitOn c rest)%list.
Proof.
  induction fuel as [|fuel IH]; intros done rest tokens Hfuel; [lia|].
  cbn [split_loop]. rewrite find_app.
  pose proof (occurrence_char c rest) as Hocc.
  destruct (occurrence (String c "") rest) as [k|]; cbn [option_map].
  - destruct Hocc as (token & rest' & -> & <- & ->).
    replace (length done + length token - length done) with (length token) by lia.
    change (String c rest') with (String c "" ++ rest').
    rewrite substr_app. cbn [lift bind].
    replace (done ++ token ++ String c "" ++ rest')
      with ((done ++ token ++ String c "") ++ rest')
      by (now rewrite !append_assoc).
    replace (length done + length token + length (String c ""))
      with (length (done ++ token ++ String c ""))
      by (rewrite !length_append; lia).
    rewrite IH.
    + now rewrite <- app_assoc.
    + rewrite !length_append in Hfuel. cbn [length] in Hfuel. lia.
  - rewrite substr_from_app, Hocc. reflexivity.
Qed.

Lemma split_char (c : ascii) (value : string) :
  split (String c "") value = Returns (splitOn c value).
Proof.
  unfold split, split_fuel.
  apply (split_loop_char c (S (length value)) "" value []). lia.
Qed.

Lemma splitOn_not_nil (c : ascii) (s : string) : splitOn c s <> [].
Proof.
  destruct s as [|d s]; cbn [splitOn]; [discriminate|].
  destruct (d =? c)%char; [discriminate|].
  destruct (splitOn c s); discriminate.
Qed.

(** [splitOn] cuts at the separator and nowhere else: joining the tokens
    gives the string back, and no token holds the separator. *)
Lemma splitOn_concat (c : ascii) (s : string) :
  String.concat (String c "") (splitOn c s) = s
  /\ Forall (fun token => mem c token = false) (splitOn c s).
Proof.
  induction s as [|d s [IHjoin IHmem]]; [now repeat constructor|].
  cbn [splitOn]. pose proof (splitOn_not_nil c s) as Hne.
  destruct (Ascii.eqb_spec d c) as [->|Hdc].
  - split; [|now constructor].
    destruct (splitOn c s) as [|token tokens]; [congruence|].
    cbn [String.concat append] in *. now rewrite IHjoin.
  - destruct (splitOn c s) as [|token tokens]; [congruence|].
    apply Forall_cons_iff in IHmem. destruct IHmem as [Htoken Htokens]. split.
    + change (String d token) with (String d "" ++ token).
      rewrite concat_cons_app, IHjoin. reflexivity.
    + constructor; [|exact Htokens]. cbn [mem].
      assert (Hcd : (c =? d)%char = false)
        by (apply Ascii.eqb_neq; congruence).
      now rewrite Hcd.
Qed.

(** * The file groups *)

(** Induction on a tree with the property available for every child. *)
Lemma ValueTree_forall_ind (P : ValueTree -> Prop) :
  (forall type properties children,
      Forall P children -> P (VT type properties children)) ->
  forall tree, P tree.
Proof.
  intros step. fix IH 1. intros [type properties children].
  apply step. induction children as [|child children IHc];
    constructor; [apply IH | exact IHc].
Qed.

Lemma replay_app {Out : Type} write (l1 l2 : list Call) (out : Out) :
  replay write (l1 ++ l2) out = replay write l2 (replay write l1 out).
Proof. apply fold_left_app. Qed.

Lemma replay_record (log l : list Call) : replay record l log = (log ++ l)%list.
Proof.
  revert log. induction l as [|c l IH]; intros log.
  - now rewrite app_nil_r.
  - cbn [replay fold_left]. unfold replay in IH. rewrite IH.
    unfold record. destruct c as [n [f d r]]. cbn. now rewrite <- app_assoc.
Qed.

Section AnySink.

Variable Out : Type.
Variable write :
  string -> list string -> list string -> list string -> Out -> Out.

Lemma processChildren_record (path : list string)
  (children : list ValueTree) :
  Forall Records children ->
  forall (acc : Pending) (log : list Call),
    processChildren record (processGroup record) (join "/" path)
      children acc (path, log)
    = (fst (childrenCalls path children acc),
       (path, (log ++ snd (childrenCalls path children acc))%list)).
Proof.
  induction 1 as [|child rest Hchild _ IH]; intros acc log.
  - cbn. now rewrite app_nil_r.
  - cbn [processChildren childrenCalls].
    destruct (hasType child "FILE"); [apply IH|].
    unfold flush. cbn [fst snd]. rewrite Hchild, IH.
    destruct (childrenCalls path rest noPending) as [acc' log'].
    cbn [fst snd]. unfold record. rewrite <- !app_assoc. now destruct acc.
Qed.

Lemma processChildren_replay (path : list string)
  (children : list ValueTree) :
  Forall (Replays write) children ->
  forall (acc : Pending) (out : Out),
    processChildren write (processGroup write) (join "/" path)
      children acc (path, out)
    = (fst (childrenCalls path children acc),
       (path, replay write (snd (childrenCalls path children acc)) out)).
Proof.
  induction 1 as [|child rest Hchild _ IH]; intros acc out.
  - reflexivity.
  - cbn [processChildren childrenCalls].
    destruct (hasType child "FILE"); [apply IH|].
    unfold flush. cbn [fst snd]. rewrite Hchild, IH.
    destruct (childrenCalls path rest noPending) as [acc' log'].
    cbn [fst snd]. change (mkCall ?n acc :: ?l)%list with ([mkCall n acc] ++ l)%list.
    now rewrite !replay_app.
Qed.

End AnySink.


Lemma removelast_snoc {A : Type} (l : list A) (a : A) :
  removelast (l ++ [a]) = l.
Proof. rewrite removelast_app by discriminate. cbn. apply app_nil_r. Qed.

Lemma processGroup_records : forall group, Records group.
Proof.
  induction group as [type properties children IH] using ValueTree_forall_ind.
  intros ancestors log. cbn [processGroup fst snd].
  rewrite (processChildren_record _ _ IH).
  unfold flush. cbn [fst snd]. rewrite removelast_snoc. f_equal.
  unfold calls. cbn [processGroup fst snd].
  rewrite (processChildren_record _ _ IH).
  unfold flush, record. cbn [fst snd app]. now rewrite <- app_assoc.
Qed.

(** The calls of a group: those of the loop, then the last flush. *)
Lemma calls_unfold (ancestors : list string) (type : string)
  (properties : list (string * var)) (children : list ValueTree) :
  let group := VT type properties children in
  let path := (ancestors ++ [groupName group])%list in
  calls ancestors group
  = (snd (childrenCalls path children noPending)
     ++ [mkCall (join "/" path) (fst (childrenCalls path children noPending))])%list.
Proof.
  cbn zeta. unfold calls at 1. cbn [processGroup fst snd].
  rewrite processChildren_record
    by (apply Forall_forall; intros; apply processGroup_records).
  unfold flush, record. cbn [fst snd app].
  now destruct (fst (childrenCalls _ children noPending)).
Qed.

Lemma processGroup_replays {Out : Type}
  (write : string -> list string -> list string -> list string -> Out -> Out) :
  forall group, Replays write group.
Proof.
  induction group as [type properties children IH] using ValueTree_forall_ind.
  intros ancestors out. cbn [processGroup fst snd].
  rewrite (processChildren_replay _ _ _ _ IH).
  unfold flush. cbn [fst snd]. rewrite removelast_snoc. f_equal.
  rewrite calls_unfold, replay_app. reflexivity.
Qed.

Lemma filesOf_noPending (group : ValueTree) : filesOf group noPending.
Proof. intros path []. Qed.

Lemma addFile_filesOf (group file : ValueTree) (acc : Pending) :
  In file (getChildren group) -> hasType file "FILE" = true ->
  filesOf group acc -> filesOf group (addFile file acc).
Proof.
  intros Hin Hfile Hacc path Hpath.
  assert (Hold :
    In path (filePaths acc ++ doNotCompileFilePaths acc ++ resourcePaths acc)%list
    \/ path = toString (getProperty file "file")).
  { unfold addFile in Hpath.
    destruct (toInt (getProperty file "resource") =? 1)%Z;
      [|destruct (hasFileExtension _ "cpp" && _)];
      cbn [filePaths doNotCompileFilePaths resourcePaths] in Hpath;
      rewrite !in_app_iff in Hpath; rewrite !in_app_iff; cbn [In] in Hpath;
      intuition auto. }
  destruct Hold as [Hold | ->]; [now apply Hacc | now exists file].
Qed.

Lemma childrenCalls_keyed (ancestors : list string) (root : ValueTree)
  (children : list ValueTree) :
  Forall (fun child => forall names, Forall (keyedByPath names child)
                                        (calls names child)) children ->
  incl children (getChildren root) ->
  forall acc : Pending,
    filesOf root acc ->
    let result :=
      childrenCalls (ancestors ++ [groupName root]) children acc in
    Forall (keyedByPath ancestors root) (snd result)
    /\ filesOf root (fst result).
Proof.
  induction 1 as [|child rest Hchild _ IH]; intros Hincl acc Hacc; cbn zeta.
  - now split.
  - cbn [childrenCalls].
    assert (Hin : In child (getChildren root)) by (apply Hincl; now left).
    assert (Hrest : incl rest (getChildren root))
      by (intros x Hx; apply Hincl; now right).
    destruct (hasType child "FILE") eqn:Htype.
    + apply IH; [exact Hrest | now apply addFile_filesOf].
    + destruct (IH Hrest noPending (filesOf_noPending root)) as [Hlog Hleft].
      destruct (childrenCalls _ rest noPending) as [acc' log].
      cbn [fst snd] in *. split; [|exact Hleft].
      constructor; [|apply Forall_app; split; [|exact Hlog]].
      * exists [groupName root], root.
        split; [constructor|]. split; [apply join_concat | exact Hacc].
      * eapply Forall_impl; [|apply Hchild].
        intros call (path & group & Hat & Hname & Hfiles).
        exists (groupName root :: path), group.
        split; [now apply groupAt_below with child|].
        split; [|exact Hfiles]. now rewrite Hname, <- app_assoc.
Qed.

Lemma calls_keyed :
  forall (root : ValueTree) (ancestors : list string),
    Forall (keyedByPath ancestors root) (calls ancestors root).
Proof.
  induction root as [type properties children IH] using ValueTree_forall_ind.
  intros ancestors. rewrite calls_unfold.
  destruct (childrenCalls_keyed ancestors (VT type properties children)
              children IH (incl_refl _) noPending (filesOf_noPending _))
    as [Hlog Hleft].
  apply Forall_app. split; [exact Hlog|].
  constructor; [|constructor].
  exists [groupName (VT type properties children)], (VT type properties children).
  split; [constructor|]. split; [apply join_concat | exact Hleft].
Qed.

(** ** The text of the calls *)

Lemma concat_nil_cons (x : string) (l : list string) :
  String.concat "" (x :: l) = x ++ String.concat "" l.
Proof. destruct l; cbn; [now rewrite append_nil_r | reflexivity]. Qed.

Lemma fold_append {A : Type} (g : A -> string) (l : list A) :
  forall out : string,
    fold_left (fun out a => out ++ g a) l out
    = out ++ String.concat "" (map g l).
Proof.
  induction l as [|a l IH]; intros out.
  - cbn. now rewrite append_nil_r.
  - cbn [fold_left map]. now rewrite IH, concat_nil_cons, append_assoc.
Qed.

(** What one call writes: the source block when there are files, closed
    after the header-only directive when some are not compiled, then the
    resource block when there are resources. *)
Lemma writeFileGroups_text (fullGroupName : string)
  (files doNotCompile resources : list string) (out : string) :
  writeFileGroups fullGroupName files doNotCompile resources out
  = out
    ++ match files with
       | [] => ""
       | _ :: _ =>
           "jucer_project_files(" ++ Q ++ fullGroupName ++ Q ++ NL
           ++ quotedLines "" files
           ++ match doNotCompile with
              | [] => ""
              | _ :: _ =>
                  ")" ++ NL ++ "set_source_files_properties(" ++ NL
                  ++ quotedLines "${JUCER_PROJECT_DIR}/" doNotCompile
                  ++ "  PROPERTIES HEADER_FILE_ONLY TRUE" ++ NL
              end
           ++ ")" ++ NL ++ NL
       end
    ++ match resources with
       | [] => ""
       | _ :: _ =>
           "jucer_project_resources(" ++ Q ++ fullGroupName ++ Q ++ NL
           ++ quotedLines "" resources ++ ")" ++ NL ++ NL
       end.
Proof.
  unfold writeFileGroups, quotedLines.
  destruct files as [|f files]; destruct doNotCompile as [|d doNotCompile];
    destruct resources as [|r resources];
    rewrite ?fold_append; cbn [append]; rewrite ?append_nil_r;
    repeat (rewrite ?append_assoc; cbn [append]); reflexivity.
Qed.

Lemma writeFileGroups_append (fullGroupName : string)
  (files doNotCompile resources : list string) (out : string) :
  writeFileGroups fullGroupName files doNotCompile resources out
  = out ++ writeFileGroups fullGroupName files doNotCompile resources "".
Proof.
  rewrite (writeFileGroups_text _ _ _ _ out), (writeFileGroups_text _ _ _ _ "").
  reflexivity.
Qed.

Lemma replay_text (log : list Call) :
  forall out : string,
    replay writeFileGroups log out = out ++ replay writeFileGroups log "".
Proof.
  induction log as [|call log IH]; intros out.
  - cbn. now rewrite append_nil_r.
  - cbn [replay fold_left]. unfold replay in IH.
    rewrite IH, (IH (writeFileGroups _ _ _ _ "")), writeFileGroups_append.
    now rewrite append_assoc.
Qed.

(** The text sink only ever appends. *)
Lemma processGroup_text (group : ValueTree) (ancestors : list string)
  (out : string) :
  processGroup writeFileGroups group (ancestors, out)
  = (ancestors, out ++ emitted ancestors group).
Proof.
  unfold emitted. rewrite !processGroup_replays. cbn [snd].
  now rewrite replay_text.
Qed.

Lemma processChildren_files {Out : Type} write recurse (fullGroupName : string)
  (files rest : list ValueTree) :
  Forall (fun file => hasType file "FILE" = true) files ->
  forall (acc : Pending) (st : list string * Out),
    processChildren write recurse fullGroupName (files ++ rest) acc st
    = processChildren write recurse fullGroupName rest (pendingOf files acc) st.
Proof.
  induction 1 as [|file files Hfile _ IH]; intros acc st; [reflexivity|].
  cbn [app processChildren pendingOf fold_left]. rewrite Hfile. apply IH.
Qed.

(** The text written for a list of calls is the text of each call in
    turn. *)
Lemma replay_texts (log : list Call) :
  replay writeFileGroups log ""
  = String.concat ""
      (map (fun call => fileGroupsText (callName call) (callPending call)) log).
Proof.
  induction log as [|call log IH]; [reflexivity|].
  cbn [map]. rewrite concat_nil_cons, <- IH. cbn [replay fold_left].
  fold (replay writeFileGroups log
          (writeFileGroups (callName call) (filePaths (callPending call))
             (doNotCompileFilePaths (callPending call))
             (resourcePaths (callPending call)) "")).
  now rewrite replay_text.
Qed.

(** * Settings, export targets and [main] *)

Lemma getSetting_returns (valueTree : ValueTree) (cmakeTag property : string) :
  getSetting valueTree cmakeTag property
  = Returns (settingText valueTree cmakeTag property).
Proof.
  unfold getSetting, settingText.
  destruct (hasProperty valueTree property); [|reflexivity].
  cbn [andb]. destruct (negb _); [|reflexivity].
  now rewrite escape_returns.
Qed.

Lemma returns_Returns {A : Type} (a : A) : returns (Returns a).
Proof. now exists a. Qed.

Lemma returns_bind {A B : Type} (m : outcome A) (k : A -> outcome B) :
  returns m -> (forall a, returns (k a)) -> returns (bind m k).
Proof. intros [a ->] Hk. apply Hk. Qed.

Create HintDb returns.
#[local] Hint Resolve returns_Returns : returns.

(** Settles [returns] goals on a chain of binds whose heads are known to
    return. *)
Ltac returns_step :=
  repeat first
    [ apply returns_Returns
    | rewrite getSetting_returns; cbn [bind]
    | rewrite escape_returns; cbn [bind]
    | apply returns_bind; [solve [eauto with returns] | intros ?] ].

Lemma forEach_returns {A : Type} (body : A -> outcome string) (l : list A) :
  (forall a, returns (body a)) -> returns (forEach body l).
Proof.
  intros Hbody. induction l as [|a l IH]; cbn [forEach]; [apply returns_Returns|].
  apply returns_bind; [apply Hbody | intros text].
  apply returns_bind; [exact IH | intros texts]. apply returns_Returns.
Qed.

Lemma projectSettings_returns (jucerProject : ValueTree) :
  returns (projectSettings jucerProject).
Proof. unfold projectSettings. returns_step. Qed.

Lemma audioPluginSettings_returns (jucerProject : ValueTree) :
  returns (audioPluginSettings jucerProject).
Proof.
  unfold audioPluginSettings. destruct (_ =? "audioplug")%string; returns_step.
Qed.

Lemma substr_0 (s : string) (n : nat) : substr s 0 n = Some (take n s).
Proof. unfold substr. cbn [Nat.leb]. now rewrite drop_0. Qed.

Lemma osxDeploymentTarget_returns (configuration : ValueTree) :
  returns (osxDeploymentTarget configuration).
Proof.
  unfold osxDeploymentTarget.
  destruct (_ =? "default")%string; [apply returns_Returns|].
  destruct (inSdks _); [|apply returns_Returns].
  rewrite substr_0. apply returns_Returns.
Qed.

Lemma xcodeMacSettings_returns (exporter configuration : ValueTree) :
  returns (xcodeMacSettings exporter configuration).
Proof.
  unfold xcodeMacSettings.
  destruct (_ =? "XCODE_MAC")%string; [|apply returns_Returns].
  destruct (osxDeploymentTarget_returns configuration) as [text ->].
  apply returns_Returns.
Qed.

#[local] Hint Resolve projectSettings_returns audioPluginSettings_returns
  xcodeMacSettings_returns : returns.

Section ProgramLemmas.

Variable parse : string -> option XmlElement.
Variable getFileName : string -> string.
Variable relativeParentDirectory : string -> string.
Variable readLines : string -> string -> string -> list string.
Variable relativePath : string -> string -> string -> string.

(** The loop over the segments keeps the non-empty ones, made relative. *)
Lemma relativeHeaderPaths_map (jucerFilePath targetFolder : string)
  (paths : list string) :
  relativeHeaderPaths relativePath jucerFilePath targetFolder paths
  = map (relativePath jucerFilePath targetFolder)
      (filter (fun path => negb (path =? "")%string) paths).
Proof.
  unfold relativeHeaderPaths.
  enough (H : forall acc,
    fold_left
      (fun pathsRelativeToJucerFileDir path =>
         if (path =? "")%string
         then pathsRelativeToJucerFileDir
         else (pathsRelativeToJucerFileDir
               ++ [relativePath jucerFilePath targetFolder path])%list)
      paths acc
    = (acc ++ map (relativePath jucerFilePath targetFolder)
                (filter (fun path => negb (path =? "")%string) paths))%list)
    by apply (H []).
  induction paths as [|path paths IH]; intros acc; cbn [fold_left filter].
  - now rewrite app_nil_r.
  - rewrite IH. destruct (path =? "")%string; cbn [negb map];
      [reflexivity | now rewrite <- app_assoc].
Qed.

Lemma headerSearchPaths_returns (jucerFilePath : string)
  (exporter configuration : ValueTree) :
  returns (headerSearchPaths relativePath jucerFilePath exporter configuration).
Proof.
  unfold headerSearchPaths.
  destruct (_ =? "")%string; [apply returns_Returns|].
  change NL with (String newline ""). rewrite split_char. cbn [bind].
  returns_step.
Qed.

Lemma exportTargetConfiguration_returns (jucerFilePath displayName : string)
  (exporter configuration : ValueTree) :
  returns (exportTargetConfiguration relativePath jucerFilePath displayName
             exporter configuration).
Proof.
  unfold exportTargetConfiguration.
  apply returns_bind; [apply headerSearchPaths_returns | intros headerPaths].
  returns_step.
Qed.

Lemma vst3SdkFolder_returns (jucerProject exporter : ValueTree)
  (defaultFolder : string) :
  returns (vst3SdkFolder jucerProject exporter defaultFolder).
Proof. unfold vst3SdkFolder. destruct (_ && _); returns_step. Qed.

Lemma exportTarget_returns (jucerProject : ValueTree) (jucerFilePath : string)
  (element : string * string * string) :
  returns (exportTarget relativePath jucerProject jucerFilePath element).
Proof.
  destruct element as [[tag displayName] defaultFolder]. unfold exportTarget.
  destruct (isValid _); [|apply returns_Returns].
  apply returns_bind; [apply vst3SdkFolder_returns | intros vst3].
  rewrite !getSetting_returns. cbn [bind].
  apply returns_bind; [|intros; apply returns_Returns].
  apply forEach_returns. intros configuration.
  apply exportTargetConfiguration_returns.
Qed.

(** Once the project is valid the whole file is written: nothing throws
    and every loop ends. *)
Lemma writeCMakeLists_returns (jucerProject : ValueTree)
  (jucerFilePath reprojucerFilePath : string) :
  returns (writeCMakeLists getFileName relativeParentDirectory readLines
             relativePath jucerProject jucerFilePath reprojucerFilePath).
Proof.
  unfold writeCMakeLists, projectBegin. rewrite getSetting_returns. cbn [bind].
  apply returns_bind; [apply projectSettings_returns | intros settings].
  apply returns_bind; [apply audioPluginSettings_returns | intros plugin].
  apply returns_bind; [|intros; apply returns_Returns].
  apply forEach_returns. intros element. apply exportTarget_returns.
Qed.

End ProgramLemmas.

Lemma occursIn_here (piece before after : string) :
  occursIn piece (before ++ piece ++ after).
Proof. now exists before, after. Qed.

Lemma occursIn_app_l (piece a b : string) :
  occursIn piece a -> occursIn piece (a ++ b).
Proof.
  intros (before & after & ->). exists before, (after ++ b).
  now rewrite !append_assoc.
Qed.

Lemma occursIn_app_r (piece a b : string) :
  occursIn piece b -> occursIn piece (a ++ b).
Proof.
  intros (before & after & ->). exists (a ++ before), after.
  now rewrite !append_assoc.
Qed.

Lemma projectFiles_text (jucerProject : ValueTree) (out : string) :
  projectFiles jucerProject out
  = out ++ emitted [] (getChildWithName jucerProject "MAINGROUP").
Proof. unfold projectFiles. now rewrite processGroup_text. Qed.

Lemma occursIn_refl (piece : string) : occursIn piece piece.
Proof. exists "", "". cbn [append]. now rewrite append_nil_r. Qed.

Lemma occursIn_concat {A : Type} (f : A -> string) (piece : string)
  (l : list A) (a : A) :
  In a l -> occursIn piece (f a) ->
  occursIn piece (String.concat "" (map f l)).
Proof.
  intros Hin Hpiece. induction l as [|b l IH]; [destruct Hin|].
  cbn [map]. rewrite concat_nil_cons. destruct Hin as [->|Hin].
  - now apply occursIn_app_l.
  - apply occursIn_app_r. now apply IH.
Qed.

Lemma emitted_texts (ancestors : list string) (group : ValueTree) :
  emitted ancestors group
  = String.concat ""
      (map (fun call => fileGroupsText (callName call) (callPending call))
         (calls ancestors group)).
Proof.
  unfold emitted. rewrite processGroup_replays. cbn [snd]. apply replay_texts.
Qed.

(** * The calls of [processGroup] and the blocks of a group *)

Lemma childrenCalls_blocks (path : list string) (children : list ValueTree) :
  Forall (fun child => forall ancestors,
            calls ancestors child = blocksOf child ancestors) children ->
  forall acc : Pending,
    (snd (childrenCalls path children acc)
     ++ [mkCall (join "/" path) (fst (childrenCalls path children acc))])%list
    = childBlocks (fun child => blocksOf child path)
        (String.concat "/" path) children acc.
Proof.
  induction 1 as [|child rest Hchild _ IH]; intros acc.
  - cbn. now rewrite join_concat.
  - cbn [childrenCalls childBlocks]. destruct (hasType child "FILE");
      [apply IH|].
    specialize (IH noPending).
    destruct (childrenCalls path rest noPending) as [acc' log].
    cbn [fst snd] in *. rewrite <- IH, Hchild, join_concat.
    cbn [app]. now rewrite <- app_assoc.
Qed.

(** The calls [processGroup] makes are the blocks of the group. *)
Lemma calls_blocks :
  forall (group : ValueTree) (ancestors : list string),
    calls ancestors group = blocksOf group ancestors.
Proof.
  induction group as [type properties children IH] using ValueTree_forall_ind.
  intros ancestors. rewrite calls_unfold. cbn [blocksOf].
  apply (childrenCalls_blocks _ _ IH).
Qed.

Lemma addFile_keeps (file : ValueTree) (acc : Pending) :
  incl (filePaths acc) (filePaths (addFile file acc))
  /\ incl (resourcePaths acc) (resourcePaths (addFile file acc)).
Proof.
  unfold addFile.
  destruct (toInt (getProperty file "resource") =? 1)%Z;
    [|destruct (hasFileExtension _ "cpp" && _)];
    cbn [filePaths resourcePaths]; split;
    try apply incl_refl; apply incl_appl, incl_refl.
Qed.

Lemma addFile_adds (file : ValueTree) (acc : Pending) :
  In (toString (getProperty file "file"))
    (filePaths (addFile file acc) ++ resourcePaths (addFile file acc)).
Proof.
  unfold addFile.
  destruct (toInt (getProperty file "resource") =? 1)%Z;
    [|destruct (hasFileExtension _ "cpp" && _)];
    cbn [filePaths resourcePaths]; rewrite !in_app_iff; cbn [In]; tauto.
Qed.

(** The gathered files are closed into a call of the group. *)
Lemma childBlocks_flush (nested : ValueTree -> list Call)
  (fullGroupName : string) (children : list ValueTree) :
  forall acc : Pending,
    exists call,
      In call (childBlocks nested fullGroupName children acc)
      /\ callName call = fullGroupName
      /\ incl (filePaths acc) (filePaths (callPending call))
      /\ incl (resourcePaths acc) (resourcePaths (callPending call)).
Proof.
  induction children as [|child rest IH]; intros acc; cbn [childBlocks].
  - exists (mkCall fullGroupName acc).
    repeat split; try apply incl_refl. now left.
  - destruct (hasType child "FILE").
    + destruct (IH (addFile child acc)) as (call & Hin & Hname & Hf & Hr).
      destruct (addFile_keeps child acc) as [Hf' Hr'].
      exists call. repeat split; try assumption;
        eapply incl_tran; eassumption.
    + exists (mkCall fullGroupName acc).
      repeat split; try apply incl_refl. now left.
Qed.

Lemma childBlocks_file (nested : ValueTree -> list Call)
  (fullGroupName : string) (children : list ValueTree) (file : ValueTree) :
  In file children -> hasType file "FILE" = true ->
  forall acc : Pending,
    exists call,
      In call (childBlocks nested fullGroupName children acc)
      /\ callName call = fullGroupName
      /\ In (toString (getProperty file "file"))
           (filePaths (callPending call) ++ resourcePaths (callPending call)).
Proof.
  intros Hin Hfile. induction children as [|child rest IH]; [destruct Hin|].
  intros acc. cbn [childBlocks]. destruct Hin as [->|Hin].
  - rewrite Hfile.
    destruct (childBlocks_flush nested fullGroupName rest (addFile file acc))
      as (call & Hcall & Hname & Hf & Hr).
    exists call. split; [exact Hcall|]. split; [exact Hname|].
    pose proof (addFile_adds file acc) as Hadd.
    apply in_app_or in Hadd. apply in_or_app.
    destruct Hadd as [Hadd|Hadd]; [left; now apply Hf | right; now apply Hr].
  - destruct (hasType child "FILE"); [now apply IH|].
    destruct (IH Hin noPending) as (call & Hcall & Hrest).
    exists call. split; [|exact Hrest].
    right. apply in_or_app. now right.
Qed.

Lemma childBlocks_nested (nested : ValueTree -> list Call)
  (fullGroupName : string) (children : list ValueTree) (child : ValueTree)
  (call : Call) :
  In child children -> hasType child "FILE" = false ->
  In call (nested child) ->
  forall acc : Pending,
    In call (childBlocks nested fullGroupName children acc).
Proof.
  intros Hin Hgroup Hcall. induction children as [|c rest IH]; [destruct Hin|].
  intros acc. cbn [childBlocks]. destruct Hin as [->|Hin].
  - rewrite Hgroup. right. apply in_or_app. now left.
  - destruct (hasType c "FILE"); [now apply IH|].
    right. apply in_or_app. right. now apply IH.
Qed.

(** Every file of every group of the tree is in a block keyed by the names
    from the outermost group down to its group. *)
Lemma blocksOf_file (root : ValueTree) (path : list string)
  (group : ValueTree) :
  groupAt root path group ->
  forall (ancestors : list string) (file : ValueTree),
    In file (getChildren group) -> hasType file "FILE" = true ->
    exists call,
      In call (blocksOf root ancestors)
      /\ callName call = String.concat "/" (ancestors ++ path)
      /\ In (toString (getProperty file "file"))
           (filePaths (callPending call) ++ resourcePaths (callPending call)).
Proof.
  induction 1 as [root | root child path group Hchild Hgroup _ IH];
    intros ancestors file Hin Hfile.
  - destruct root as [type properties children]. cbn [blocksOf].
    now apply childBlocks_file.
  - destruct (IH (ancestors ++ [groupName root])%list file Hin Hfile)
      as (call & Hcall & Hname & Hpath).
    exists call. split; [|split; [|exact Hpath]].
    + destruct root as [type properties children]. cbn [blocksOf].
      now apply (childBlocks_nested _ _ _ child).
    + now rewrite Hname, <- app_assoc.
Qed.

Lemma emitted_call (ancestors : list string) (root : ValueTree) (call : Call) :
  In call (calls ancestors root) ->
  occursIn (fileGroupsText (callName call) (callPending call))
    (emitted ancestors root).
Proof.
  intros Hcall. rewrite emitted_texts.
  apply (occursIn_concat _ _ _ call Hcall). apply occursIn_refl.
Qed.

(** * Escaped quotes, exactly *)

Lemma noEscapedQuote_plain (value : string) :
  mem backslash value = false -> noEscapedQuote value = true.
Proof.
  induction value as [|c value IH]; [reflexivity|].
  cbn [mem noEscapedQuote]. intros H. apply orb_false_elim in H.
  destruct H as [Hc H]. rewrite Ascii.eqb_sym, Hc. now apply IH.
Qed.

(** When the quote is escaped and the backslash is not, the quotes of the
    escaped value are all escaped exactly when no backslash of the value
    takes a quote with it. *)
Lemma quotesEscaped_exact (chars : string) :
  mem dquote chars = true ->
  mem backslash chars = false ->
  forall (n : nat) (value : string),
    length value <= n ->
    quotesEscaped (escaped chars value) = noEscapedQuote value.
Proof.
  intros Hq Hb. induction n as [|n IH]; intros value Hn.
  - destruct value; [reflexivity | cbn [length] in Hn; lia].
  - destruct value as [|c s]; [reflexivity|]. cbn [length] in Hn.
    cbn [escaped]. destruct (mem c chars) eqn:Hc.
    + cbn [quotesEscaped noEscapedQuote]. rewrite Ascii.eqb_refl.
      assert (Hcb : (c =? backslash)%char = false)
        by (rewrite Ascii.eqb_sym; now apply (mem_differs chars)).
      rewrite Hcb. apply IH. lia.
    + cbn [quotesEscaped noEscapedQuote].
      destruct (c =? backslash)%char eqn:Hcb.
      * destruct s as [|d s']; [reflexivity|]. cbn [length] in Hn.
        cbn [escaped]. destruct (mem d chars) eqn:Hd.
        -- cbn [quotesEscaped].
           assert (Hdb : (d =? backslash)%char = false)
             by (rewrite Ascii.eqb_sym; now apply (mem_differs chars)).
           rewrite Hdb. destruct (d =? dquote)%char; [reflexivity|].
           apply IH. lia.
        -- rewrite (mem_differs chars d dquote Hd Hq). apply IH. lia.
      * rewrite (mem_differs chars c dquote Hc Hq). apply IH. lia.
Qed.

(** * The properties of the translator *)

(** ** Escaping *)

(** C8 (as the code has it).  [escape] returns for every set and every
    value, and its result is the value with one backslash put before each
    character of [charsToEscape].  A second pass leaves the escaped string
    unchanged only when the value held no character to escape: otherwise
    it escapes the same characters again.  When the quote is escaped,
    every quote of the result comes right after one backslash that is not
    itself escaped exactly when the backslash is escaped too or, reading
    the value from the left with each backslash taking the next character
    with it, no backslash takes a quote; a value without backslash is such
    a value. *)
Theorem escape_quotes (charsToEscape value : string) :
  exists out : string,
    escape charsToEscape value = Returns out
    /\ out = escaped charsToEscape value
    /\ (escape charsToEscape out = Returns out
        <-> hasSpecial charsToEscape value = false)
    /\ (mem dquote charsToEscape = true ->
        (quotesEscaped out = true
         <-> mem backslash charsToEscape = true
             \/ noEscapedQuote value = true))
    /\ (mem backslash value = false -> noEscapedQuote value = true).
Proof.
  exists (escaped charsToEscape value).
  split; [apply escape_returns|]. split; [reflexivity|].
  split; [|split; [|apply noEscapedQuote_plain]].
  - rewrite escape_returns. split.
    + intros H. injection H as H.
      destruct (hasSpecial charsToEscape value) eqn:Hs; [|reflexivity].
      destruct (hasSpecial charsToEscape (escaped charsToEscape value)) eqn:He.
      * apply escaped_longer in He. rewrite H in He. lia.
      * apply hasSpecial_escaped in He. congruence.
    + intros Hs. now rewrite !(escaped_plain _ _ Hs).
  - intros Hquote. destruct (mem backslash charsToEscape) eqn:Hb.
    + split; [now left|]. intros _. apply quotesEscaped_escaped; auto.
    + rewrite (quotesEscaped_exact charsToEscape Hquote Hb
                 (length value) value (le_n _)).
      split; [now right|]. now intros [H|H].
Qed.

(** A Windows path before a quoted word: the backslash takes the letter
    after it, and both quotes of the result are escaped. *)
Lemma escape_quotes_witness :
  mem dquote Q = true
  /\ noEscapedQuote ("C:\dir " ++ Q ++ "x" ++ Q) = true
  /\ exists out : string,
       escape Q ("C:\dir " ++ Q ++ "x" ++ Q) = Returns out
       /\ out = "C:\dir " ++ BS ++ Q ++ "x" ++ BS ++ Q
       /\ quotesEscaped out = true.
Proof.
  split; [reflexivity|]. split; [reflexivity|].
  destruct (escape_quotes Q ("C:\dir " ++ Q ++ "x" ++ Q))
    as (out & Hout & Heq & _ & Hquotes & _).
  exists out. split; [exact Hout|]. split; [now rewrite Heq|].
  apply Hquotes; [reflexivity | right; reflexivity].
Defined.

(** C8 as stated fails.  With only the quote escaped, the value made of a
    backslash and a quote becomes two backslashes and a quote: read from
    the left, the two backslashes form one escape sequence and the quote is
    bare.  And the second pass over that result is not a no-op: it gives
    three backslashes and a quote. *)
Lemma escape_quotes_counterexample :
  mem dquote Q = true
  /\ hasSpecial Q (BS ++ Q) = true
  /\ escape Q (BS ++ Q) = Returns (BS ++ BS ++ Q)
  /\ quotesEscaped (BS ++ BS ++ Q) = false
  /\ escape Q (BS ++ BS ++ Q) = Returns (BS ++ BS ++ BS ++ Q)
  /\ escape Q (BS ++ BS ++ Q) <> Returns (BS ++ BS ++ Q).
Proof. repeat split; try reflexivity. discriminate. Qed.

(** The second pass also changes an escaped string that never held a
    backslash of its own. *)
Example escape_twice :
  escape Q Q = Returns (BS ++ Q)
  /\ escape Q (BS ++ Q) = Returns (BS ++ BS ++ Q).
Proof. split; reflexivity. Qed.

(** ** Splitting and joining *)

(** C10.  For a separator that is not empty, [split] returns, with at
    least one token, and joining the tokens with the separator gives the
    value back; any larger amount of fuel gives the same tokens.  The
    empty value is split into the one empty token.  With the empty
    separator the loop never ends: it is still running after any number
    of iterations. *)
Theorem join_split (sep value : string) :
  sep <> "" ->
  (exists tokens : list string,
      split sep value = Returns tokens
      /\ tokens <> []
      /\ join sep tokens = value
      /\ forall fuel, length value < fuel ->
                      split_fuel fuel sep value = Returns tokens)
  /\ split sep "" = Returns [""]
  /\ forall fuel, split_fuel fuel "" value = OutOfFuel.
Proof.
  intros Hsep. split; [|split].
  - destruct (split_loop_app sep Hsep (length value) value (le_n _))
      as (tokens & Hne & Hjoin & Hloop).
    exists tokens. split; [apply (Hloop _ "" []); lia|].
    split; [exact Hne|]. split; [now rewrite join_concat|].
    intros fuel Hfuel. apply (Hloop fuel "" [] Hfuel).
  - destruct sep as [|c sep]; [now destruct Hsep | reflexivity].
  - intros fuel. apply (split_loop_empty_sep fuel "" value []).
Qed.

Lemma join_split_witness :
  "," <> ""
  /\ (exists tokens : list string,
         split "," "a,,b" = Returns tokens
         /\ tokens <> []
         /\ join "," tokens = "a,,b"
         /\ forall fuel, length "a,,b" < fuel ->
                         split_fuel fuel "," "a,,b" = Returns tokens)
  /\ split "," "" = Returns [""]
  /\ forall fuel, split_fuel fuel "" "a,,b" = OutOfFuel.
Proof.
  split; [discriminate|]. apply (join_split "," "a,,b"). discriminate.
Defined.

Example split_commas : split "," "a,,b" = Returns ["a"; ""; "b"].
Proof. reflexivity. Qed.

Example split_long_separator : split "ab" "xabab" = Returns ["x"; ""; ""].
Proof. reflexivity. Qed.

Example join_slash : join "/" ["A"; "B"; "C"] = "A/B/C".
Proof. reflexivity. Qed.

(** ** A single setting *)

(** C5.  [getSetting] returns for every tree, tag and property.  Its
    result is the tag, a space and the value between quotes, every quote
    of the value escaped, when the property is present and its string is
    not empty; in every other case it is the tag after [# ].  The two
    forms are never equal. *)
Theorem getSetting_formats (valueTree : ValueTree)
  (cmakeTag property : string) :
  let value := toString (getProperty valueTree property) in
  getSetting valueTree cmakeTag property
  = Returns
      (if hasProperty valueTree property && negb (value =? "")%string
       then cmakeTag ++ " " ++ Q ++ escaped Q value ++ Q
       else "# " ++ cmakeTag)
  /\ cmakeTag ++ " " ++ Q ++ escaped Q value ++ Q <> "# " ++ cmakeTag.
Proof.
  cbn zeta. split; [apply getSetting_returns|].
  intros H. apply (f_equal length) in H.
  rewrite !length_append in H. change (length Q) with 1 in H.
  cbn [length] in H. lia.
Qed.

Example getSetting_present :
  getSetting (VT "JUCERPROJECT" [("name", varString ("a" ++ Q ++ "b"))] [])
    "PROJECT_NAME" "name"
  = Returns ("PROJECT_NAME " ++ Q ++ "a" ++ BS ++ Q ++ "b" ++ Q).
Proof. reflexivity. Qed.

Example getSetting_empty :
  getSetting (VT "JUCERPROJECT" [("name", varString "")] [])
    "PROJECT_NAME" "name"
  = Returns "# PROJECT_NAME".
Proof. reflexivity. Qed.

Example getSetting_absent :
  getSetting (VT "JUCERPROJECT" [] []) "PROJECT_NAME" "name"
  = Returns "# PROJECT_NAME".
Proof. reflexivity. Qed.

(** ** Files of a group *)

(** C1 (as the code has it).  A [FILE] child that is not a resource and
    whose path has the extension [cpp] is appended to the file list of the
    group; it is appended to the list of files not to compile as well when
    its [compile] property reads as 0, which is also what a missing
    [compile] property reads as; when the property reads as 1 the file goes
    to the file list only.  The loop goes on with these vectors, which the
    next flush of the group writes. *)
Theorem cpp_compile_flag {Out : Type} write recurse (fullGroupName : string)
  (file : ValueTree) (rest : list ValueTree) (acc : Pending)
  (st : list string * Out) :
  hasType file "FILE" = true ->
  toInt (getProperty file "resource") <> 1%Z ->
  hasFileExtension (toString (getProperty file "file")) "cpp" = true ->
  let path := toString (getProperty file "file") in
  let compile := toInt (getProperty file "compile") in
  processChildren write recurse fullGroupName (file :: rest) acc st
  = processChildren write recurse fullGroupName rest (addFile file acc) st
  /\ (hasProperty file "compile" = false -> compile = 0%Z)
  /\ (compile = 0%Z ->
      addFile file acc
      = mkPending (filePaths acc ++ [path]) (doNotCompileFilePaths acc ++ [path])
          (resourcePaths acc))
  /\ (compile = 1%Z ->
      addFile file acc
      = mkPending (filePaths acc ++ [path]) (doNotCompileFilePaths acc)
          (resourcePaths acc)).
Proof.
  intros Hfile Hresource Hcpp. cbn zeta.
  split; [cbn [processChildren]; now rewrite Hfile|].
  split.
  { unfold hasProperty, getProperty.
    destruct (lookup "compile" (getProperties file)); [discriminate | reflexivity]. }
  apply Z.eqb_neq in Hresource.
  split; intros Hcompile; unfold addFile; rewrite Hresource, Hcpp, Hcompile;
    reflexivity.
Qed.

Lemma cpp_compile_flag_witness :
  let file :=
    VT "FILE" [("file", varString "Source/Main.cpp"); ("compile", varString "1");
               ("resource", varString "0")] [] in
  hasType file "FILE" = true
  /\ toInt (getProperty file "resource") <> 1%Z
  /\ hasFileExtension (toString (getProperty file "file")) "cpp" = true
  /\ addFile file noPending = mkPending ["Source/Main.cpp"] [] [].
Proof.
  cbn zeta. split; [reflexivity|]. split; [discriminate|].
  split; [reflexivity|].
  apply (cpp_compile_flag record (fun _ st => st) "Source"
           (VT "FILE" [("file", varString "Source/Main.cpp");
                       ("compile", varString "1");
                       ("resource", varString "0")] [])
           [] noPending ([], []));
    [reflexivity | discriminate | reflexivity | reflexivity].
Defined.

(** C1 as stated fails for a file without a [compile] property: it is put
    on the list of files not to compile, and the group gets the
    header-only directive. *)
Lemma cpp_without_compile_counterexample :
  let file := VT "FILE" [("file", varString "main.cpp")] [] in
  let group := VT "MAINGROUP" [("name", varString "Source")] [file] in
  hasType file "FILE" = true
  /\ toInt (getProperty file "resource") <> 1%Z
  /\ hasFileExtension "main.cpp" "cpp" = true
  /\ hasProperty file "compile" = false
  /\ addFile file noPending = mkPending ["main.cpp"] ["main.cpp"] []
  /\ emitted [] group
     = "jucer_project_files(" ++ Q ++ "Source" ++ Q ++ NL
       ++ "  " ++ Q ++ "main.cpp" ++ Q ++ NL
       ++ ")" ++ NL
       ++ "set_source_files_properties(" ++ NL
       ++ "  " ++ Q ++ "${JUCER_PROJECT_DIR}/main.cpp" ++ Q ++ NL
       ++ "  PROPERTIES HEADER_FILE_ONLY TRUE" ++ NL
       ++ ")" ++ NL ++ NL.
Proof. cbn zeta. repeat split; try reflexivity. discriminate. Qed.

Example compile_0_is_excluded :
  addFile (VT "FILE" [("file", varString "a.cpp"); ("compile", varString "0");
                      ("resource", varString "0")] []) noPending
  = mkPending ["a.cpp"] ["a.cpp"] [].
Proof. reflexivity. Qed.

Example header_is_never_excluded :
  addFile (VT "FILE" [("file", varString "a.h"); ("compile", varString "0");
                      ("resource", varString "0")] []) noPending
  = mkPending ["a.h"] [] [].
Proof. reflexivity. Qed.

Example resource_is_never_compiled :
  addFile (VT "FILE" [("file", varString "a.cpp"); ("compile", varString "1");
                      ("resource", varString "1")] []) noPending
  = mkPending [] [] ["a.cpp"].
Proof. reflexivity. Qed.

(** ** Full group names *)

(** C4.  Whatever the sink, [processGroup] leaves the stack of group names
    as it found it, so a name is on the stack only while its group is
    processed, and it makes the calls of [blocksOf], which are defined
    from the tree alone.  Every call is keyed by the names, joined by [/],
    on the way from the outermost group down to some group of the tree,
    and the paths it carries are files of that group.  Every file of a
    group at depth n is carried by a call keyed by the n names from the
    outermost group down to its group, and the text of that call is part of
    the text written.  The text written is the text of the calls in order,
    and a block of files or of resources is opened with the name of its
    call. *)
Theorem full_group_names {Out : Type}
  (write : string -> list string -> list string -> list string -> Out -> Out)
  (root : ValueTree) (ancestors : list string) (out : Out) :
  processGroup write root (ancestors, out)
  = (ancestors, replay write (blocksOf root ancestors) out)
  /\ calls ancestors root = blocksOf root ancestors
  /\ Forall
       (fun call =>
          exists (path : list string) (group : ValueTree),
            groupAt root path group
            /\ callName call = String.concat "/" (ancestors ++ path)
            /\ filesOf group (callPending call))
       (blocksOf root ancestors)
  /\ (forall (path : list string) (group file : ValueTree),
        groupAt root path group ->
        In file (getChildren group) ->
        hasType file "FILE" = true ->
        exists call,
          In call (blocksOf root ancestors)
          /\ callName call = String.concat "/" (ancestors ++ path)
          /\ In (toString (getProperty file "file"))
               (filePaths (callPending call)
                ++ resourcePaths (callPending call))
          /\ occursIn (fileGroupsText (callName call) (callPending call))
               (emitted ancestors root))
  /\ emitted ancestors root
     = String.concat ""
         (map (fun call => fileGroupsText (callName call) (callPending call))
            (blocksOf root ancestors))
  /\ (forall (fullGroupName : string) (acc : Pending),
        (filePaths acc <> [] ->
         exists rest,
           fileGroupsText fullGroupName acc
           = "jucer_project_files(" ++ Q ++ fullGroupName ++ Q ++ NL ++ rest)
        /\ (resourcePaths acc <> [] ->
            occursIn
              ("jucer_project_resources(" ++ Q ++ fullGroupName ++ Q ++ NL)
              (fileGroupsText fullGroupName acc))).
Proof.
  rewrite <- calls_blocks.
  split; [apply processGroup_replays|]. split; [reflexivity|].
  split; [apply calls_keyed|]. split; [|split; [apply emitted_texts|]].
  - intros path group file Hat Hin Hfile.
    destruct (blocksOf_file root path group Hat ancestors file Hin Hfile)
      as (call & Hcall & Hname & Hpath).
    rewrite <- calls_blocks in Hcall.
    exists call. repeat split; try assumption. now apply emitted_call.
  - intros fullGroupName [files excluded resources].
    assert (Hnil : forall s : string, "" ++ s = s) by reflexivity.
    unfold fileGroupsText. rewrite writeFileGroups_text, Hnil.
    cbn [filePaths doNotCompileFilePaths resourcePaths]. split.
    + intros Hfiles. destruct files as [|f files]; [congruence|].
      eexists. rewrite !append_assoc. reflexivity.
    + intros Hresources. destruct resources as [|r resources]; [congruence|].
      apply occursIn_app_r.
      exists "", (quotedLines "" (r :: resources) ++ ")" ++ NL ++ NL).
      rewrite Hnil, !append_assoc. reflexivity.
Qed.

(** The file [b.h] of the group [B] nested in [A] is in a call keyed
    [A/B]. *)
Lemma full_group_names_witness :
  let B := VT "GROUP" [("name", varString "B")]
             [VT "FILE" [("file", varString "b.h")] []] in
  let A := VT "GROUP" [("name", varString "A")]
             [B; VT "FILE" [("file", varString "a.h")] []] in
  groupAt A ["A"; "B"] B
  /\ exists call,
       In call (blocksOf A [])
       /\ callName call = "A/B"
       /\ In "b.h" (filePaths (callPending call)
                    ++ resourcePaths (callPending call))
       /\ occursIn (fileGroupsText (callName call) (callPending call))
            (emitted [] A).
Proof.
  cbn zeta.
  assert (Hat : groupAt
    (VT "GROUP" [("name", varString "A")]
       [VT "GROUP" [("name", varString "B")]
          [VT "FILE" [("file", varString "b.h")] []];
        VT "FILE" [("file", varString "a.h")] []])
    ["A"; "B"]
    (VT "GROUP" [("name", varString "B")]
       [VT "FILE" [("file", varString "b.h")] []])).
  { apply (groupAt_below
             (VT "GROUP" [("name", varString "A")]
                [VT "GROUP" [("name", varString "B")]
                   [VT "FILE" [("file", varString "b.h")] []];
                 VT "FILE" [("file", varString "a.h")] []])
             (VT "GROUP" [("name", varString "B")]
                [VT "FILE" [("file", varString "b.h")] []])
             ["B"]);
      [now left | reflexivity | apply groupAt_here]. }
  split; [exact Hat|].
  exact (proj1 (proj2 (proj2 (proj2
           (full_group_names record _ [] [])))) ["A"; "B"] _
           (VT "FILE" [("file", varString "b.h")] [])
           Hat (or_introl eq_refl) eq_refl).
Defined.

(** Entering [A] then [B] gives [A/B]; back in [A] the name is [A]. *)
Example full_group_names_A_B :
  let B := VT "GROUP" [("name", varString "B")]
             [VT "FILE" [("file", varString "b.h")] []] in
  let A := VT "GROUP" [("name", varString "A")]
             [B; VT "FILE" [("file", varString "a.h")] []] in
  calls [] A
  = [mkCall "A" noPending;
     mkCall "A/B" (mkPending ["b.h"] [] []);
     mkCall "A" (mkPending ["a.h"] [] [])]
  /\ emitted [] A
     = "jucer_project_files(" ++ Q ++ "A/B" ++ Q ++ NL
       ++ "  " ++ Q ++ "b.h" ++ Q ++ NL ++ ")" ++ NL ++ NL
       ++ "jucer_project_files(" ++ Q ++ "A" ++ Q ++ NL
       ++ "  " ++ Q ++ "a.h" ++ Q ++ NL ++ ")" ++ NL ++ NL.
Proof. split; reflexivity. Qed.

(** ** Flushing at a nested group *)

(** C2.  In a group whose children are [files], all of type [FILE], then a
    child [subgroup] that is not a [FILE], then [rest]: the vectors filled
    from [files] are written under the full name of the group, the
    subgroup is processed with the name of the group on the stack and
    leaves the stack as it was, and the loop goes on over [rest] with empty
    vectors, as for a group that has only [rest].  A group whose children
    [lastFiles] are all files writes once, after the last child.  One call
    writes the source block when there are files, with the header-only
    directive before its closing when some are not compiled, then the
    resource block when there are resources, and nothing for an empty
    vector.  So the text of the parent for [files] comes before the text
    of the subgroup. *)
Theorem flush_before_subgroup {Out : Type} write (type : string)
  (properties : list (string * var)) (files : list ValueTree)
  (subgroup : ValueTree) (rest lastFiles : list ValueTree)
  (ancestors : list string) (out : Out) (text : string) :
  Forall (fun file => hasType file "FILE" = true) files ->
  hasType subgroup "FILE" = false ->
  Forall (fun file => hasType file "FILE" = true) lastFiles ->
  let group := VT type properties (files ++ subgroup :: rest) in
  let path := (ancestors ++ [groupName group])%list in
  let fullGroupName := String.concat "/" path in
  let acc := pendingOf files noPending in
  let flushed :=
    write fullGroupName (filePaths acc) (doNotCompileFilePaths acc)
      (resourcePaths acc) out in
  let last := pendingOf lastFiles noPending in
  processGroup write group (ancestors, out)
  = processGroup write (VT type properties rest)
      (ancestors, snd (processGroup write subgroup (path, flushed)))
  /\ fst (processGroup write subgroup (path, flushed)) = path
  /\ processGroup write (VT type properties lastFiles) (ancestors, out)
     = (ancestors,
        write fullGroupName (filePaths last) (doNotCompileFilePaths last)
          (resourcePaths last) out)
  /\ processGroup writeFileGroups group (ancestors, text)
     = (ancestors,
        text ++ fileGroupsText fullGroupName acc
             ++ emitted path subgroup
             ++ emitted ancestors (VT type properties rest))
  /\ fileGroupsText fullGroupName acc
     = match filePaths acc with
       | [] => ""
       | _ :: _ =>
           "jucer_project_files(" ++ Q ++ fullGroupName ++ Q ++ NL
           ++ quotedLines "" (filePaths acc)
           ++ match doNotCompileFilePaths acc with
              | [] => ""
              | _ :: _ =>
                  ")" ++ NL ++ "set_source_files_properties(" ++ NL
                  ++ quotedLines "${JUCER_PROJECT_DIR}/"
                       (doNotCompileFilePaths acc)
                  ++ "  PROPERTIES HEADER_FILE_ONLY TRUE" ++ NL
              end
           ++ ")" ++ NL ++ NL
       end
       ++ match resourcePaths acc with
          | [] => ""
          | _ :: _ =>
              "jucer_project_resources(" ++ Q ++ fullGroupName ++ Q ++ NL
              ++ quotedLines "" (resourcePaths acc) ++ ")" ++ NL ++ NL
          end.
Proof.
  intros Hfiles Hsub Hlast. cbn zeta.
  assert (Hstep : forall (O : Type) (w : string -> list string -> list string
                                         -> list string -> O -> O) (o : O),
    processGroup w (VT type properties (files ++ subgroup :: rest)) (ancestors, o)
    = processGroup w (VT type properties rest)
        (ancestors,
         snd (processGroup w subgroup
                ((ancestors ++ [groupName (VT type properties (files ++ subgroup :: rest))])%list,
                 w (String.concat "/" (ancestors ++ [groupName (VT type properties (files ++ subgroup :: rest))]))
                   (filePaths (pendingOf files noPending))
                   (doNotCompileFilePaths (pendingOf files noPending))
                   (resourcePaths (pendingOf files noPending)) o)))).
  { intros O w o. unfold groupName. cbn [processGroup fst snd].
    unfold getProperty. cbn [getProperties].
    rewrite (processChildren_files _ _ _ _ _ Hfiles).
    cbn [processChildren]. rewrite Hsub. unfold flush. cbn [fst snd].
    rewrite !join_concat, !processGroup_replays. reflexivity. }
  split; [apply Hstep|].
  split; [now rewrite processGroup_replays|].
  split.
  { cbn [processGroup fst snd].
    pose proof (fun full => processChildren_files write (processGroup write)
                              full lastFiles [] Hlast) as Hloop.
    rewrite app_nil_r in Hloop. rewrite Hloop. cbn [processChildren].
    unfold flush, groupName, getProperty. cbn [fst snd getProperties].
    now rewrite removelast_snoc, join_concat. }
  split.
  { rewrite Hstep, !processGroup_text. cbn [snd].
    rewrite writeFileGroups_append. unfold fileGroupsText.
    now rewrite !append_assoc. }
  unfold fileGroupsText. now rewrite writeFileGroups_text.
Qed.

Lemma flush_before_subgroup_witness :
  let files := [VT "FILE" [("file", varString "a.cpp")] []] in
  let subgroup :=
    VT "GROUP" [("name", varString "B")]
      [VT "FILE" [("file", varString "b.h")] []] in
  let rest := [VT "FILE" [("file", varString "c.png");
                          ("resource", varString "1")] []] in
  let group := VT "GROUP" [("name", varString "A")] (files ++ subgroup :: rest) in
  Forall (fun file => hasType file "FILE" = true) files
  /\ hasType subgroup "FILE" = false
  /\ Forall (fun file => hasType file "FILE" = true) rest
  /\ processGroup writeFileGroups group ([], "")
     = ([],
        fileGroupsText "A" (pendingOf files noPending)
        ++ emitted ["A"] subgroup
        ++ emitted [] (VT "GROUP" [("name", varString "A")] rest)).
Proof.
  cbn zeta.
  assert (H1 : Forall (fun file => hasType file "FILE" = true)
                 [VT "FILE" [("file", varString "a.cpp")] []])
    by (repeat constructor).
  assert (H2 : hasType (VT "GROUP" [("name", varString "B")]
                          [VT "FILE" [("file", varString "b.h")] []]) "FILE"
               = false) by reflexivity.
  assert (H3 : Forall (fun file => hasType file "FILE" = true)
                 [VT "FILE" [("file", varString "c.png");
                             ("resource", varString "1")] []])
    by (repeat constructor).
  split; [exact H1|]. split; [exact H2|]. split; [exact H3|].
  destruct (flush_before_subgroup writeFileGroups "GROUP"
              [("name", varString "A")] _ _
              [VT "FILE" [("file", varString "c.png");
                          ("resource", varString "1")] []]
              _ [] "" "" H1 H2 H3) as (_ & _ & _ & Htext & _).
  exact Htext.
Defined.

(** ** SDK versions of the Xcode exporter *)

Lemma sdks_suffix (value : string) :
  In value sdks ->
  value <> "default" /\ inSdks value = true
  /\ exists stem, value = stem ++ " SDK".
Proof.
  intros Hin. split; [|split].
  - cbn in Hin. intuition subst; discriminate.
  - unfold inSdks. apply existsb_exists. exists value.
    split; [exact Hin | apply String.eqb_refl].
  - exists (take (length value - 4) value).
    cbn in Hin. intuition subst; reflexivity.
Qed.

Lemma inSdks_In (value : string) : inSdks value = true <-> In value sdks.
Proof.
  unfold inSdks. rewrite existsb_exists. split.
  - intros (sdk & Hin & Heq). apply String.eqb_eq in Heq. now subst.
  - intros Hin. exists value. split; [exact Hin | apply String.eqb_refl].
Qed.

(** C6.  For a configuration of the exporter [XCODE_MAC], with [version]
    the property [osxSDK] and [target] the property [osxCompatibility]:
    [default] gives [Use Default]; a member of the list of the eight
    versions is written unchanged as the base SDK version, and without its
    last four characters, the suffix [ SDK], as the deployment target; any
    other value gives the commented tag.  The two lines are always
    produced: nothing throws. *)
Theorem xcode_sdk_validation (exporter configuration : ValueTree) :
  getType exporter = "XCODE_MAC" ->
  let version := toString (getProperty configuration "osxSDK") in
  let target := toString (getProperty configuration "osxCompatibility") in
  (exists targetLine,
      osxDeploymentTarget configuration = Returns targetLine
      /\ xcodeMacSettings exporter configuration
         = Returns (osxBaseSdkVersion configuration ++ targetLine))
  /\ (version = "default" ->
      osxBaseSdkVersion configuration
      = "  OSX_BASE_SDK_VERSION " ++ Q ++ "Use Default" ++ Q ++ NL)
  /\ (In version sdks ->
      osxBaseSdkVersion configuration
      = "  OSX_BASE_SDK_VERSION " ++ Q ++ version ++ Q ++ NL)
  /\ (version <> "default" -> ~ In version sdks ->
      osxBaseSdkVersion configuration = "  # OSX_BASE_SDK_VERSION" ++ NL)
  /\ (target = "default" ->
      osxDeploymentTarget configuration
      = Returns ("  OSX_DEPLOYMENT_TARGET " ++ Q ++ "Use Default" ++ Q ++ NL))
  /\ (In target sdks ->
      exists stem,
        target = stem ++ " SDK"
        /\ osxDeploymentTarget configuration
           = Returns ("  OSX_DEPLOYMENT_TARGET " ++ Q ++ stem ++ Q ++ NL))
  /\ (target <> "default" -> ~ In target sdks ->
      osxDeploymentTarget configuration
      = Returns ("  # OSX_DEPLOYMENT_TARGET" ++ NL)).
Proof.
  intros Hxcode. cbn zeta. split; [|repeat split].
  - destruct (osxDeploymentTarget_returns configuration) as [line Hline].
    exists line. split; [exact Hline|].
    unfold xcodeMacSettings. rewrite Hxcode, Hline. reflexivity.
  - intros Hv. unfold osxBaseSdkVersion. now rewrite Hv.
  - intros Hv. destruct (sdks_suffix _ Hv) as (Hd & Hin & _).
    unfold osxBaseSdkVersion. apply String.eqb_neq in Hd. now rewrite Hd, Hin.
  - intros Hd Hv. unfold osxBaseSdkVersion. apply String.eqb_neq in Hd.
    rewrite Hd. destruct (inSdks _) eqn:Hin; [|reflexivity].
    now apply inSdks_In in Hin.
  - intros Ht. unfold osxDeploymentTarget. now rewrite Ht.
  - intros Ht. destruct (sdks_suffix _ Ht) as (Hd & Hin & stem & Hstem).
    exists stem. split; [exact Hstem|].
    unfold osxDeploymentTarget. apply String.eqb_neq in Hd.
    rewrite Hd, Hin, substr_0, Hstem. cbn [lift bind].
    rewrite length_append. cbn [length].
    replace (length stem + 4 - 4) with (length stem) by lia.
    now rewrite take_app_length.
  - intros Hd Ht. unfold osxDeploymentTarget. apply String.eqb_neq in Hd.
    rewrite Hd. destruct (inSdks _) eqn:Hin; [|reflexivity].
    now apply inSdks_In in Hin.
Qed.

Lemma xcode_sdk_validation_witness :
  let exporter := VT "XCODE_MAC" [] [] in
  let configuration :=
    VT "CONFIGURATION"
      [("osxSDK", varString "10.9 SDK");
       ("osxCompatibility", varString "10.9 SDK")] [] in
  getType exporter = "XCODE_MAC"
  /\ exists targetLine,
       osxDeploymentTarget configuration = Returns targetLine
       /\ xcodeMacSettings exporter configuration
          = Returns (osxBaseSdkVersion configuration ++ targetLine).
Proof.
  cbn zeta. split; [reflexivity|].
  apply (xcode_sdk_validation (VT "XCODE_MAC" [] [])
           (VT "CONFIGURATION"
              [("osxSDK", varString "10.9 SDK");
               ("osxCompatibility", varString "10.9 SDK")] [])).
  reflexivity.
Defined.

Example xcode_sdk_10_9 :
  xcodeMacSettings (VT "XCODE_MAC" [] [])
    (VT "CONFIGURATION"
       [("osxSDK", varString "10.9 SDK");
        ("osxCompatibility", varString "10.9 SDK")] [])
  = Returns ("  OSX_BASE_SDK_VERSION " ++ Q ++ "10.9 SDK" ++ Q ++ NL
             ++ "  OSX_DEPLOYMENT_TARGET " ++ Q ++ "10.9" ++ Q ++ NL).
Proof. reflexivity. Qed.

Example xcode_sdk_10_99 :
  xcodeMacSettings (VT "XCODE_MAC" [] [])
    (VT "CONFIGURATION"
       [("osxSDK", varString "10.99 SDK");
        ("osxCompatibility", varString "default")] [])
  = Returns ("  # OSX_BASE_SDK_VERSION" ++ NL
             ++ "  OSX_DEPLOYMENT_TARGET " ++ Q ++ "Use Default" ++ Q ++ NL).
Proof. reflexivity. Qed.

(** ** Header search paths *)

Section HeaderSearchPaths.

Variable relativePath : string -> string -> string -> string.

(** C7.  For a configuration with [raw] the property [headerPath]: when
    [raw] is empty the commented tag is written; otherwise [raw] is cut at
    every line feed, the empty segments are dropped, each segment left is
    made relative through the target folder of the exporter, and the
    results joined by line feeds, every backslash escaped, are written
    between quotes.  The segments joined by line feeds are [raw] and none
    holds a line feed.  For [inc1], an empty line and [inc2] the result has
    the two relative paths, each with its backslashes escaped, and one line
    feed between them. *)
Theorem header_search_paths (jucerFilePath : string)
  (exporter configuration : ValueTree) :
  let raw := toString (getProperty configuration "headerPath") in
  let relative :=
    relativePath jucerFilePath (toString (getProperty exporter "targetFolder")) in
  let segments := splitOn newline raw in
  let written :=
    headerSearchPaths relativePath jucerFilePath exporter configuration in
  (raw = "" -> written = Returns ("  # HEADER_SEARCH_PATHS" ++ NL))
  /\ (raw <> "" ->
      written
      = Returns
          ("  HEADER_SEARCH_PATHS " ++ Q
           ++ escaped BS
                (String.concat NL
                   (map relative
                      (filter (fun segment => negb (segment =? "")%string)
                         segments)))
           ++ Q ++ NL))
  /\ String.concat NL segments = raw
  /\ Forall (fun segment => mem newline segment = false) segments
  /\ (raw = "inc1" ++ NL ++ NL ++ "inc2" ->
      written
      = Returns
          ("  HEADER_SEARCH_PATHS " ++ Q
           ++ escaped BS (relative "inc1") ++ NL ++ escaped BS (relative "inc2")
           ++ Q ++ NL)).
Proof.
  cbn zeta.
  assert (Hgeneral :
    toString (getProperty configuration "headerPath") <> "" ->
    headerSearchPaths relativePath jucerFilePath exporter configuration
    = Returns
        ("  HEADER_SEARCH_PATHS " ++ Q
         ++ escaped BS
              (String.concat NL
                 (map (relativePath jucerFilePath
                         (toString (getProperty exporter "targetFolder")))
                    (filter (fun segment => negb (segment =? "")%string)
                       (splitOn newline
                          (toString (getProperty configuration "headerPath"))))))
         ++ Q ++ NL)).
  { intros Hraw. unfold headerSearchPaths. apply String.eqb_neq in Hraw.
    rewrite Hraw. change NL with (String newline "") at 1.
    rewrite split_char. cbn [bind].
    now rewrite escape_returns, join_concat, relativeHeaderPaths_map. }
  split; [|split; [exact Hgeneral|split; [|split]]].
  - intros Hraw. unfold headerSearchPaths. now rewrite Hraw.
  - apply splitOn_concat.
  - apply splitOn_concat.
  - intros Hraw. rewrite Hgeneral by (rewrite Hraw; discriminate).
    rewrite Hraw.
    change (filter (fun segment => negb (segment =? "")%string)
              (splitOn newline ("inc1" ++ NL ++ NL ++ "inc2")))
      with ["inc1"; "inc2"].
    cbn [map String.concat]. rewrite !escaped_app.
    change (escaped BS NL) with NL. now rewrite !append_assoc.
Qed.

End HeaderSearchPaths.

Lemma header_search_paths_witness :
  let relativePath := fun _ targetFolder path : string => "../" ++ path in
  let exporter := VT "XCODE_MAC" [("targetFolder", varString "Builds/MacOSX")] [] in
  let configuration :=
    VT "CONFIGURATION"
      [("headerPath", varString ("inc1" ++ NL ++ NL ++ "inc2"))] [] in
  toString (getProperty configuration "headerPath") = "inc1" ++ NL ++ NL ++ "inc2"
  /\ headerSearchPaths relativePath "App.jucer" exporter configuration
     = Returns ("  HEADER_SEARCH_PATHS " ++ Q ++ "../inc1" ++ NL ++ "../inc2"
                ++ Q ++ NL).
Proof.
  cbn zeta. split; [reflexivity|].
  destruct (header_search_paths (fun _ _ path => "../" ++ path) "App.jucer"
              (VT "XCODE_MAC" [("targetFolder", varString "Builds/MacOSX")] [])
              (VT "CONFIGURATION"
                 [("headerPath", varString ("inc1" ++ NL ++ NL ++ "inc2"))] []))
    as (_ & _ & _ & _ & H).
  rewrite (H eq_refl). reflexivity.
Defined.

Example header_search_paths_backslash :
  headerSearchPaths (fun _ targetFolder path => "..\" ++ path) "App.jucer"
    (VT "VS2015" [("targetFolder", varString "Builds\VisualStudio2015")] [])
    (VT "CONFIGURATION" [("headerPath", varString ("inc1" ++ NL ++ NL ++ "inc2"))] [])
  = Returns ("  HEADER_SEARCH_PATHS " ++ Q ++ "..\\inc1" ++ NL ++ "..\\inc2"
             ++ Q ++ NL).
Proof. reflexivity. Qed.

(** ** The project settings *)

(** C9.  For every project the block of the project settings is written,
    and between the bundle identifier and the binary data namespace it
    holds the argument [BINARYDATACPP_SIZE_LIMIT] with the value
    [Default]: a constant of the program, the same for every project, where
    the arguments around it are read from properties.  The block, and so
    this line, is part of every file the program writes. *)
Theorem binary_data_size_limit (jucerProject : ValueTree) :
  let setting := settingText jucerProject in
  let sizeLimit := "  BINARYDATACPP_SIZE_LIMIT " ++ Q ++ "Default" ++ Q ++ NL in
  let before :=
    "jucer_project_settings(" ++ NL
    ++ "  " ++ setting "PROJECT_NAME" "name" ++ NL
    ++ "  " ++ setting "PROJECT_VERSION" "version" ++ NL
    ++ "  " ++ setting "COMPANY_NAME" "companyName" ++ NL
    ++ "  " ++ setting "COMPANY_WEBSITE" "companyWebsite" ++ NL
    ++ "  " ++ setting "COMPANY_EMAIL" "companyEmail" ++ NL
    ++ "  PROJECT_TYPE " ++ Q
    ++ projectTypeDescription
         (toString (getProperty jucerProject "projectType"))
    ++ Q ++ NL
    ++ "  " ++ setting "BUNDLE_IDENTIFIER" "bundleIdentifier" ++ NL in
  let after :=
    "  " ++ setting "BINARYDATA_NAMESPACE" "binaryDataNamespace" ++ NL
    ++ "  " ++ setting "PREPROCESSOR_DEFINITIONS" "defines" ++ NL
    ++ ")" ++ NL ++ NL in
  projectSettings jucerProject = Returns (before ++ sizeLimit ++ after)
  /\ forall (getFileName relativeParentDirectory : string -> string)
       (readLines : string -> string -> string -> list string)
       (relativePath : string -> string -> string -> string)
       (jucerFilePath reprojucerFilePath : string),
     exists out : string,
       writeCMakeLists getFileName relativeParentDirectory readLines
         relativePath jucerProject jucerFilePath reprojucerFilePath
       = Returns out
       /\ occursIn sizeLimit out.
Proof.
  cbn zeta.
  match goal with |- ?block /\ _ => assert (Hblock : block) end.
  { unfold projectSettings. rewrite !getSetting_returns. cbn [bind].
    repeat (rewrite ?append_assoc; cbn [append]). reflexivity. }
  split; [exact Hblock|].
  intros getFileName relativeParentDirectory readLines relativePath
    jucerFilePath reprojucerFilePath.
  unfold writeCMakeLists, projectBegin.
  rewrite getSetting_returns, Hblock. cbn [bind].
  destruct (audioPluginSettings_returns jucerProject) as [plugin ->].
  destruct (forEach_returns
              (exportTarget relativePath jucerProject jucerFilePath)
              supportedExporters
              (exportTarget_returns relativePath jucerProject jucerFilePath))
    as [targets ->].
  cbn [bind]. eexists. split; [reflexivity|].
  rewrite projectFiles_text.
  do 5 apply occursIn_app_l. apply occursIn_app_r. apply occursIn_here.
Qed.

Example projectSettings_empty_project :
  projectSettings (VT "JUCERPROJECT" [] [])
  = Returns
      ("jucer_project_settings(" ++ NL
       ++ "  # PROJECT_NAME" ++ NL
       ++ "  # PROJECT_VERSION" ++ NL
       ++ "  # COMPANY_NAME" ++ NL
       ++ "  # COMPANY_WEBSITE" ++ NL
       ++ "  # COMPANY_EMAIL" ++ NL
       ++ "  PROJECT_TYPE " ++ Q ++ Q ++ NL
       ++ "  # BUNDLE_IDENTIFIER" ++ NL
       ++ "  BINARYDATACPP_SIZE_LIMIT " ++ Q ++ "Default" ++ Q ++ NL
       ++ "  # BINARYDATA_NAMESPACE" ++ NL
       ++ "  # PREPROCESSOR_DEFINITIONS" ++ NL
       ++ ")" ++ NL ++ NL).
Proof. reflexivity. Qed.

(** ** The exit status *)

Section ExitStatus.

Variable parse : string -> option XmlElement.
Variable getFileName : string -> string.
Variable relativeParentDirectory : string -> string.
Variable readLines : string -> string -> string -> list string.
Variable relativePath : string -> string -> string -> string.

(** C3 (as the code has it).  Called with a number of words other than
    three, the program name and two arguments, [main] writes the one line
    [usage: Jucer2CMake <jucer_project_file> <Reprojucer.cmake_file>] to
    the error stream, writes no file and exits with status 1.  Called with
    two arguments it always ends: with status 0, nothing on the error
    stream and the file written, exactly when the project file parses to
    an element whose tag is [JUCERPROJECT]; otherwise with status 1, no
    file, and the one line [error: <path> is not a valid Jucer project.]. *)
Theorem main_exit_status (argv : list string) :
  let run :=
    main parse getFileName relativeParentDirectory readLines relativePath argv in
  (List.length argv <> 3 ->
   run
   = Returns
       (mkResult
          ("usage: Jucer2CMake <jucer_project_file> <Reprojucer.cmake_file>"
           ++ NL)
          None 1))
  /\ (List.length argv = 3 ->
      exists (jucerFilePath : string) (result : ProcessResult),
        nth_error argv 1 = Some jucerFilePath
        /\ run = Returns result
        /\ ((exists out, result = mkResult "" (Some out) 0)
            \/ result
               = mkResult
                   ("error: " ++ jucerFilePath
                    ++ " is not a valid Jucer project." ++ NL)
                   None 1)
        /\ (exitStatus result = 0%Z
            <-> exists attributes elements,
                  parse jucerFilePath
                  = Some (Xml "JUCERPROJECT" attributes elements))).
Proof.
  cbn zeta. split; intros Hargc; unfold main.
  - apply Nat.eqb_neq in Hargc. now rewrite Hargc.
  - destruct argv as [|program [|jucerFilePath [|reprojucerFilePath [|? ?]]]];
      try discriminate.
    exists jucerFilePath. cbn [List.length Nat.eqb negb nth_error lift bind].
    destruct (parse jucerFilePath) as [[tagName attributes elements]|].
    + destruct (tagName =? "JUCERPROJECT")%string eqn:Htag.
      * apply String.eqb_eq in Htag. subst tagName.
        cbn [hasTagName]. change (lowered "JUCERPROJECT" =? _)%string with true.
        cbn [negb fromXml]. change (hasType (VT "JUCERPROJECT" _ _) _) with true.
        cbn [negb].
        destruct (writeCMakeLists_returns getFileName relativeParentDirectory
                    readLines relativePath
                    (VT "JUCERPROJECT"
                       (map (fun kv => (fst kv, varString (snd kv))) attributes)
                       (map fromXml elements))
                    jucerFilePath reprojucerFilePath) as [out Hout].
        rewrite Hout. cbn [bind]. eexists. split; [reflexivity|].
        split; [reflexivity|]. split; [left; now exists out|].
        split; [|reflexivity]. intros _. now exists attributes, elements.
      * assert (Hinvalid :
          hasType (fromXml (Xml tagName attributes elements)) "JUCERPROJECT"
          = false).
        { cbn [fromXml]. unfold hasType. cbn [getType]. rewrite Htag.
          apply andb_false_r. }
        rewrite Hinvalid. cbn [negb].
        exists (mkResult
                  (printError (jucerFilePath ++ " is not a valid Jucer project."))
                  None 1).
        split; [reflexivity|].
        split; [now destruct (negb (hasTagName _ _))|].
        split; [right; unfold printError; now rewrite append_assoc|].
        cbn [exitStatus]. split; [discriminate|].
        intros (attributes' & elements' & Hxml). injection Hxml as -> _ _.
        discriminate.
    + eexists. split; [reflexivity|]. split; [reflexivity|].
      split; [right; unfold printError; now rewrite append_assoc|].
      cbn [exitStatus]. split; [discriminate|].
      intros (attributes & elements & Hxml). discriminate.
Qed.

End ExitStatus.

Lemma main_exit_status_witness :
  let argv := ["Jucer2CMake"; "App.jucer"] in
  List.length argv <> 3
  /\ main (fun _ => None) (fun path => path) (fun path => path)
       (fun _ _ _ => []) (fun _ _ path => path) argv
     = Returns
         (mkResult
            ("usage: Jucer2CMake <jucer_project_file> <Reprojucer.cmake_file>"
             ++ NL)
            None 1).
Proof.
  cbn zeta. split; [discriminate|].
  apply (main_exit_status (fun _ => None) (fun path => path) (fun path => path)
           (fun _ _ _ => []) (fun _ _ path => path)
           ["Jucer2CMake"; "App.jucer"]).
  discriminate.
Defined.

(** C3 as stated fails: with one argument too few the line on the error
    stream starts with [usage: ], not with [error: ]. *)
Lemma usage_counterexample :
  let argv := ["Jucer2CMake"; "App.jucer"] in
  let run :=
    main (fun _ => None) (fun path => path) (fun path => path)
      (fun _ _ _ => []) (fun _ _ path => path) argv in
  List.length argv <> 3
  /\ exists result,
       run = Returns result
       /\ exitStatus result = 1%Z
       /\ prefix "error: " (cerr result) = false
       /\ forall message, cerr result <> "error: " ++ message ++ NL.
Proof.
  cbn zeta. split; [discriminate|]. eexists. split; [reflexivity|].
  split; [reflexivity|]. split; [reflexivity|].
  intros message H. discriminate.
Qed.

(** A project with one group and one file, no module and no exporter. *)
Example main_minimal_project :
  let project :=
    Xml "JUCERPROJECT" [("id", "x1"); ("name", "App");
                        ("projectType", "consoleapp")]
      [Xml "MAINGROUP" [("name", "Source")]
         [Xml "FILE" [("file", "main.cpp"); ("compile", "1");
                      ("resource", "0")] []]] in
  main (fun _ => Some project) (fun _ => "App.jucer") (fun _ => "cmake")
    (fun _ _ _ => []) (fun _ _ path => path)
    ["Jucer2CMake"; "App.jucer"; "cmake/Reprojucer.cmake"]
  = Returns
      (mkResult ""
         (Some
            ("# This file was generated by Jucer2CMake from App.jucer" ++ NL
             ++ NL
             ++ "cmake_minimum_required(VERSION 3.4)" ++ NL
             ++ NL ++ NL
             ++ "list(APPEND CMAKE_MODULE_PATH " ++ Q
             ++ "${CMAKE_CURRENT_LIST_DIR}/cmake" ++ Q ++ ")" ++ NL
             ++ "include(Reprojucer)" ++ NL
             ++ NL ++ NL
             ++ "if(NOT DEFINED App_jucer_FILE)" ++ NL
             ++ "  message(FATAL_ERROR " ++ Q
             ++ "App_jucer_FILE must be defined" ++ Q ++ ")" ++ NL
             ++ "endif()" ++ NL
             ++ NL
             ++ "get_filename_component(App_jucer_FILE" ++ NL
             ++ "  " ++ Q ++ "${App_jucer_FILE}" ++ Q ++ " ABSOLUTE" ++ NL
             ++ "  BASE_DIR " ++ Q ++ "${CMAKE_BINARY_DIR}" ++ Q ++ NL
             ++ ")" ++ NL
             ++ NL ++ NL
             ++ "jucer_project_begin(" ++ NL
             ++ "  PROJECT_FILE " ++ Q ++ "${App_jucer_FILE}" ++ Q ++ NL
             ++ "  PROJECT_ID " ++ Q ++ "x1" ++ Q ++ NL
             ++ ")" ++ NL
             ++ NL
             ++ "jucer_project_settings(" ++ NL
             ++ "  PROJECT_NAME " ++ Q ++ "App" ++ Q ++ NL
             ++ "  # PROJECT_VERSION" ++ NL
             ++ "  # COMPANY_NAME" ++ NL
             ++ "  # COMPANY_WEBSITE" ++ NL
             ++ "  # COMPANY_EMAIL" ++ NL
             ++ "  PROJECT_TYPE " ++ Q ++ "Console Application" ++ Q ++ NL
             ++ "  # BUNDLE_IDENTIFIER" ++ NL
             ++ "  BINARYDATACPP_SIZE_LIMIT " ++ Q ++ "Default" ++ Q ++ NL
             ++ "  # BINARYDATA_NAMESPACE" ++ NL
             ++ "  # PREPROCESSOR_DEFINITIONS" ++ NL
             ++ ")" ++ NL
             ++ NL
             ++ "jucer_project_files(" ++ Q ++ "Source" ++ Q ++ NL
             ++ "  " ++ Q ++ "main.cpp" ++ Q ++ NL
             ++ ")" ++ NL
             ++ NL
             ++ "jucer_project_end()" ++ NL))
         0).
Proof. vm_compute. reflexivity. Qed.

(** * Further properties of the code *)

(** ** [escape] loses nothing *)

Lemma escaped_head (chars s : string) :
  mem backslash chars = false ->
  match escaped chars s with
  | EmptyString => s = EmptyString
  | String d _ => mem d chars = false
  end.
Proof.
  intros Hb. destruct s as [|c s]; cbn [escaped]; [reflexivity|].
  now destruct (mem c chars) eqn:Hc.
Qed.

Lemma unescape_escaped (chars s : string) :
  unescape chars (escaped chars s) = s.
Proof.
  induction s as [|c s IH]; [reflexivity|].
  cbn [escaped]. destruct (mem c chars) eqn:Hc.
  - cbn [unescape]. rewrite Ascii.eqb_refl, Hc. now rewrite IH.
  - cbn [unescape]. destruct (Ascii.eqb_spec c backslash) as [->|Hcb];
      [|now rewrite IH].
    pose proof (escaped_head chars s Hc) as Hhead.
    destruct (escaped chars s) as [|d rest] eqn:He.
    + now subst s.
    + rewrite Hhead. now rewrite IH.
Qed.

(** X1.  [escape] can be undone: dropping, from the left, each backslash
    that stands before a character of [charsToEscape] gives the value
    back.  So two values with the same escaped form are equal. *)
Theorem escape_can_be_undone (charsToEscape value : string) :
  exists out : string,
    escape charsToEscape value = Returns out
    /\ unescape charsToEscape out = value
    /\ forall other : string,
         escape charsToEscape other = Returns out -> other = value.
Proof.
  exists (escaped charsToEscape value).
  split; [apply escape_returns|]. split; [apply unescape_escaped|].
  intros other Hother. rewrite escape_returns in Hother.
  injection Hother as Hother.
  rewrite <- (unescape_escaped charsToEscape other), Hother.
  apply unescape_escaped.
Qed.

Lemma escaped_count (chars s : string) :
  length (escaped chars s) = length s + countSpecial chars s.
Proof.
  induction s as [|c s IH]; [reflexivity|].
  cbn [escaped countSpecial]. destruct (mem c chars); cbn [length];
    rewrite IH; lia.
Qed.

Lemma countSpecial_le (chars s : string) : countSpecial chars s <= length s.
Proof.
  induction s as [|c s IH]; [apply le_n|].
  cbn [countSpecial length]. destruct (mem c chars); lia.
Qed.

(** X2.  The escaped value is longer than the value by the number of its
    characters that are to be escaped: never more than twice as long.
    With nothing to escape, an empty set or an empty value, the value is
    returned as it is. *)
Theorem escape_length (charsToEscape value : string) :
  exists out : string,
    escape charsToEscape value = Returns out
    /\ length out = length value + countSpecial charsToEscape value
    /\ length out <= 2 * length value
    /\ escape "" value = Returns value
    /\ escape charsToEscape "" = Returns "".
Proof.
  exists (escaped charsToEscape value).
  split; [apply escape_returns|]. split; [apply escaped_count|].
  split; [rewrite escaped_count;
          pose proof (countSpecial_le charsToEscape value); lia|].
  split; [|reflexivity].
  rewrite escape_returns. f_equal. apply escaped_plain.
  induction value as [|c value IH]; [reflexivity | exact IH].
Qed.

(** ** [split] and [join] *)

Lemma splitOn_plain (c : ascii) (token : string) :
  mem c token = false -> splitOn c token = [token].
Proof.
  induction token as [|d token IH]; [reflexivity|].
  cbn [mem splitOn]. intros H. apply orb_false_elim in H. destruct H as [Hcd H].
  rewrite Ascii.eqb_sym, Hcd, (IH H). reflexivity.
Qed.

Lemma splitOn_app (c : ascii) (token rest : string) :
  mem c token = false ->
  splitOn c (token ++ String c rest) = token :: splitOn c rest.
Proof.
  induction token as [|d token IH]; intros H.
  - cbn [append splitOn]. now rewrite Ascii.eqb_refl.
  - cbn [mem] in H. apply orb_false_elim in H. destruct H as [Hcd H].
    cbn [append splitOn]. rewrite Ascii.eqb_sym, Hcd, (IH H). reflexivity.
Qed.

Lemma splitOn_concat_inv (c : ascii) (tokens : list string) :
  tokens <> [] ->
  Forall (fun token => mem c token = false) tokens ->
  splitOn c (String.concat (String c "") tokens) = tokens.
Proof.
  intros Hne Hfree. induction Hfree as [|token tokens Htoken Hfree IH];
    [congruence|].
  destruct tokens as [|token' tokens].
  - cbn [String.concat]. now apply splitOn_plain.
  - cbn [String.concat append]. rewrite (splitOn_app _ _ _ Htoken).
    f_equal. apply IH. discriminate.
Qed.

(** X3.  Splitting what was joined with a separator of one character
    gives the list back, provided the list is not empty and no element
    holds the separator.  The empty list does not come back: it is joined
    to the empty string, which is split into one empty token. *)
Theorem split_join (c : ascii) (elements : list string) :
  elements <> [] ->
  Forall (fun element => mem c element = false) elements ->
  split (String c "") (join (String c "") elements) = Returns elements
  /\ split (String c "") (join (String c "") []) = Returns [""].
Proof.
  intros Hne Hfree. split; [|reflexivity].
  rewrite split_char, join_concat. f_equal.
  now apply splitOn_concat_inv.
Qed.

Lemma split_join_witness :
  ["inc"; ""; "src"] <> []
  /\ Forall (fun element => mem newline element = false) ["inc"; ""; "src"]
  /\ split NL (join NL ["inc"; ""; "src"]) = Returns ["inc"; ""; "src"].
Proof.
  assert (Hne : ["inc"; ""; "src"] <> []) by discriminate.
  assert (Hfree : Forall (fun element => mem newline element = false)
                    ["inc"; ""; "src"]) by (repeat constructor).
  split; [exact Hne|]. split; [exact Hfree|].
  exact (proj1 (split_join newline ["inc"; ""; "src"] Hne Hfree)).
Defined.

Lemma prefix_app_r (p a b : string) :
  prefix p a = true -> prefix p (a ++ b) = true.
Proof.
  revert a. induction p as [|c p IH]; intros a H; [apply prefix_nil|].
  destruct a as [|d a]; [discriminate|]. cbn [append prefix] in *.
  destruct (ascii_dec c d); [now apply IH | discriminate].
Qed.

Lemma occurrence_Some_free (sep s : string) (k : nat) :
  sep <> "" ->
  occurrence sep s = Some k ->
  exists token rest,
    s = token ++ sep ++ rest /\ length token = k
    /\ occurrence sep token = None.
Proof.
  intros Hsep. revert k. induction s as [|c s IH]; intros k H.
  - cbn [occurrence] in H. destruct (prefix sep "") eqn:Hp; [|discriminate].
    destruct sep; [congruence | discriminate].
  - cbn [occurrence] in H. destruct (prefix sep (String c s)) eqn:Hp.
    + injection H as <-. destruct (prefix_app _ _ Hp) as [rest Hrest].
      exists "", rest. repeat split; [exact Hrest|].
      destruct sep; [congruence | reflexivity].
    + destruct (occurrence sep s) as [k'|]; [|discriminate].
      injection H as <-.
      destruct (IH k' eq_refl) as (token & rest & -> & <- & Hfree).
      exists (String c token), rest. repeat split.
      cbn [occurrence]. rewrite Hfree.
      destruct (prefix sep (String c token)) eqn:Hp'; [|reflexivity].
      apply (prefix_app_r _ _ (sep ++ rest)) in Hp'.
      cbn [append] in Hp'. congruence.
Qed.

(** The loop of [split] adds only tokens in which the separator does not
    occur. *)
Lemma split_loop_free (sep : string) :
  sep <> "" ->
  forall (n : nat) (rest : string),
    length rest <= n ->
    exists added,
      Forall (fun token => occurrence sep token = None) added
      /\ forall (fuel : nat) (done : string) (tokens : list string),
          length rest < fuel ->
          split_loop fuel sep (done ++ rest) (length done) tokens
          = Returns (tokens ++ added)%list.
Proof.
  intros Hsep.
  assert (Hlen : length sep <> 0) by (intros H0; now apply length_zero in H0).
  induction n as [|n IH]; intros rest Hn;
    destruct (occurrence sep rest) as [k|] eqn:Hk.
  - destruct (occurrence_Some _ _ _ Hk) as (token & rest' & -> & _).
    rewrite !length_append in Hn. lia.
  - exists [rest]. split; [now repeat constructor|].
    intros [|fuel] done tokens Hfuel; [lia|].
    cbn [split_loop]. rewrite find_app, Hk. cbn [option_map].
    now rewrite substr_from_app.
  - destruct (occurrence_Some_free _ _ _ Hsep Hk)
      as (token & rest' & -> & <- & Hfree).
    rewrite !length_append in Hn.
    destruct (IH rest') as (added & Hadded & Hloop); [lia|].
    exists (token :: added). split; [now constructor|].
    intros [|fuel] done tokens Hfuel; [lia|].
    cbn [split_loop]. rewrite find_app, Hk. cbn [option_map].
    replace (length done + length token - length done) with (length token) by lia.
    rewrite substr_app. cbn [lift bind].
    replace (done ++ token ++ sep ++ rest')
      with ((done ++ token ++ sep) ++ rest') by (now rewrite !append_assoc).
    replace (length done + length token + length sep)
      with (length (done ++ token ++ sep)) by (rewrite !length_append; lia).
    rewrite Hloop; [now rewrite <- app_assoc|].
    rewrite !length_append in Hfuel. lia.
  - exists [rest]. split; [now repeat constructor|].
    intros [|fuel] done tokens Hfuel; [lia|].
    cbn [split_loop]. rewrite find_app, Hk. cbn [option_map].
    now rewrite substr_from_app.
Qed.

(** X4.  For a separator that is not empty, no token that [split] returns
    holds the separator: [find] does not find it in any of them. *)
Theorem split_tokens_free (sep value : string) :
  sep <> "" ->
  exists tokens : list string,
    split sep value = Returns tokens
    /\ Forall (fun token => find token sep 0 = None) tokens.
Proof.
  intros Hsep.
  destruct (split_loop_free sep Hsep (length value) value (le_n _))
    as (tokens & Hfree & Hloop).
  exists tokens. split; [apply (Hloop _ "" []); lia|].
  eapply Forall_impl; [|exact Hfree].
  intros token Htoken. unfold find. cbn [Nat.leb]. now rewrite drop_0, Htoken.
Qed.

Lemma split_tokens_free_witness :
  "ab" <> ""
  /\ exists tokens : list string,
       split "ab" "xababy" = Returns tokens
       /\ Forall (fun token => find token "ab" 0 = None) tokens.
Proof.
  split; [discriminate|]. apply (split_tokens_free "ab" "xababy"). discriminate.
Defined.

Lemma concat_app (sep : string) (l1 l2 : list string) :
  l1 <> [] -> l2 <> [] ->
  String.concat sep (l1 ++ l2)
  = String.concat sep l1 ++ sep ++ String.concat sep l2.
Proof.
  intros H1 H2. induction l1 as [|x l1 IH]; [congruence|].
  destruct l1 as [|y l1].
  - cbn [app String.concat]. destruct l2; [congruence | reflexivity].
  - change ((x :: y :: l1) ++ l2)%list with (x :: (y :: l1) ++ l2)%list.
    cbn [String.concat app] in *. rewrite IH by discriminate.
    now rewrite !append_assoc.
Qed.

(** X5.  [join] of two lists put one after the other, neither empty, is
    the two joined texts with the separator between them; with an empty
    list on one side it is the joined text of the other.  So the full name
    of a nested group is the full name of its parent, a slash and its own
    name. *)
Theorem join_app (sep : string) (front back : list string) (name : string) :
  front <> [] -> back <> [] ->
  join sep (front ++ back) = join sep front ++ sep ++ join sep back
  /\ join sep ([] ++ back) = join sep back
  /\ join sep (front ++ []) = join sep front
  /\ join "/" (front ++ [name]) = join "/" front ++ "/" ++ name.
Proof.
  intros Hfront Hback. rewrite !join_concat, app_nil_r.
  split; [now apply concat_app|]. split; [reflexivity|].
  split; [reflexivity|]. now rewrite concat_app.
Qed.

Lemma join_app_witness :
  ["Source"; "A"] <> [] /\ ["B"; "C"] <> []
  /\ join "/" (["Source"; "A"] ++ ["B"; "C"])
     = join "/" ["Source"; "A"] ++ "/" ++ join "/" ["B"; "C"].
Proof.
  assert (H1 : ["Source"; "A"] <> []) by discriminate.
  assert (H2 : ["B"; "C"] <> []) by discriminate.
  split; [exact H1|]. split; [exact H2|].
  exact (proj1 (join_app "/" ["Source"; "A"] ["B"; "C"] "x" H1 H2)).
Defined.

(** ** What the flushes carry *)

Section Collected.

(** One of the three vectors, with what a [FILE] child adds to it. *)
Variable vector : Pending -> list string.
Variable contribution : ValueTree -> list string.
Hypothesis vector_noPending : vector noPending = [].
Hypothesis vector_addFile :
  forall file acc, vector (addFile file acc) = (vector acc ++ contribution file)%list.

Lemma childrenCalls_collect (path : list string) (children : list ValueTree) :
  Forall (fun child => forall ancestors,
            vectorOfCalls vector (calls ancestors child) = collect contribution child)
    children ->
  forall acc : Pending,
    (vectorOfCalls vector (snd (childrenCalls path children acc))
     ++ vector (fst (childrenCalls path children acc)))%list
    = (vector acc
       ++ flat_map
            (fun child =>
               if hasType child "FILE" then contribution child
               else collect contribution child)
            children)%list.
Proof.
  induction 1 as [|child rest Hchild _ IH]; intros acc.
  - cbn. now rewrite app_nil_r.
  - cbn [childrenCalls flat_map]. destruct (hasType child "FILE").
    + now rewrite IH, vector_addFile, <- app_assoc.
    + specialize (IH noPending). rewrite vector_noPending in IH.
      destruct (childrenCalls path rest noPending) as [acc' log].
      cbn [fst snd app] in *. unfold vectorOfCalls in *.
      cbn [flat_map callPending]. rewrite flat_map_app, <- !app_assoc.
      rewrite IH. unfold vectorOfCalls. now rewrite Hchild.
Qed.

Lemma calls_collect :
  forall (group : ValueTree) (ancestors : list string),
    vectorOfCalls vector (calls ancestors group) = collect contribution group.
Proof.
  induction group as [type properties children IH] using ValueTree_forall_ind.
  intros ancestors. rewrite calls_unfold. unfold vectorOfCalls.
  rewrite flat_map_app. cbn [flat_map callPending]. rewrite app_nil_r.
  pose proof (childrenCalls_collect
                (ancestors ++ [groupName (VT type properties children)])
                children IH noPending) as H.
  rewrite vector_noPending in H. exact H.
Qed.

End Collected.

Lemma filePaths_addFile (file : ValueTree) (acc : Pending) :
  filePaths (addFile file acc)
  = (filePaths acc ++ (if isResource file then [] else [filePath file]))%list.
Proof.
  unfold addFile, isResource, filePath.
  destruct (toInt (getProperty file "resource") =? 1)%Z;
    [now rewrite app_nil_r|].
  now destruct (hasFileExtension _ "cpp" && _).
Qed.

Lemma doNotCompile_addFile (file : ValueTree) (acc : Pending) :
  doNotCompileFilePaths (addFile file acc)
  = (doNotCompileFilePaths acc
     ++ (if isExcluded file then [filePath file] else []))%list.
Proof.
  unfold addFile, isExcluded, isResource, filePath.
  destruct (toInt (getProperty file "resource") =? 1)%Z; cbn [negb andb];
    [now rewrite app_nil_r|].
  destruct (hasFileExtension _ "cpp" && _); cbn; [reflexivity|].
  now rewrite app_nil_r.
Qed.

Lemma resourcePaths_addFile (file : ValueTree) (acc : Pending) :
  resourcePaths (addFile file acc)
  = (resourcePaths acc ++ (if isResource file then [filePath file] else []))%list.
Proof.
  unfold addFile, isResource, filePath.
  destruct (toInt (getProperty file "resource") =? 1)%Z; [reflexivity|].
  destruct (hasFileExtension _ "cpp" && _); cbn; now rewrite app_nil_r.
Qed.

(** X6.  Nothing is lost, repeated or reordered by the flushes: over all
    the calls of [writeFileGroups] made for a group, in order, the file
    vectors hold the paths of the files under the group that are not
    resources, in document order; the resource vectors hold the paths of
    the resources; and the vectors of files not to compile hold the paths
    of the [cpp] files whose [compile] property reads as 0. *)
Theorem flushes_keep_every_file (group : ValueTree)
  (ancestors : list string) :
  flat_map (fun call => filePaths (callPending call)) (calls ancestors group)
  = sourcePaths group
  /\ flat_map (fun call => resourcePaths (callPending call))
       (calls ancestors group)
     = resourcePathsUnder group
  /\ flat_map (fun call => doNotCompileFilePaths (callPending call))
       (calls ancestors group)
     = excludedPaths group.
Proof.
  split; [|split].
  - apply (calls_collect filePaths _ eq_refl filePaths_addFile).
  - apply (calls_collect resourcePaths _ eq_refl resourcePaths_addFile).
  - apply (calls_collect doNotCompileFilePaths _ eq_refl doNotCompile_addFile).
Qed.

Example flushes_keep_every_file_example :
  let group :=
    VT "MAINGROUP" [("name", varString "App")]
      [VT "FILE" [("file", varString "a.cpp"); ("compile", varString "1")] [];
       VT "GROUP" [("name", varString "G")]
         [VT "FILE" [("file", varString "b.cpp"); ("compile", varString "0")] [];
          VT "FILE" [("file", varString "r.png"); ("resource", varString "1")] []];
       VT "FILE" [("file", varString "c.h")] []] in
  sourcePaths group = ["a.cpp"; "b.cpp"; "c.h"]
  /\ resourcePathsUnder group = ["r.png"]
  /\ excludedPaths group = ["b.cpp"].
Proof. repeat split. Qed.

Lemma childrenCalls_invariant (Inv : Pending -> Prop) (path : list string)
  (children : list ValueTree) :
  Inv noPending ->
  (forall file acc, Inv acc -> Inv (addFile file acc)) ->
  Forall (fun child => forall ancestors,
            Forall (fun call => Inv (callPending call)) (calls ancestors child))
    children ->
  forall acc : Pending,
    Inv acc ->
    Forall (fun call => Inv (callPending call))
      (snd (childrenCalls path children acc))
    /\ Inv (fst (childrenCalls path children acc)).
Proof.
  intros Hempty Hadd. induction 1 as [|child rest Hchild _ IH]; intros acc Hacc.
  - now split.
  - cbn [childrenCalls]. destruct (hasType child "FILE").
    + apply IH, Hadd, Hacc.
    + destruct (IH noPending Hempty) as [Hlog Hleft].
      destruct (childrenCalls path rest noPending) as [acc' log].
      cbn [fst snd] in *. split; [|exact Hleft].
      constructor; [exact Hacc|]. apply Forall_app. split; [apply Hchild | exact Hlog].
Qed.

(** A property of the vectors that holds when they are empty and is kept
    by every added file holds at every flush. *)
Lemma calls_invariant (Inv : Pending -> Prop) :
  Inv noPending ->
  (forall file acc, Inv acc -> Inv (addFile file acc)) ->
  forall (group : ValueTree) (ancestors : list string),
    Forall (fun call => Inv (callPending call)) (calls ancestors group).
Proof.
  intros Hempty Hadd.
  induction group as [type properties children IH] using ValueTree_forall_ind.
  intros ancestors. rewrite calls_unfold.
  destruct (childrenCalls_invariant Inv
              (ancestors ++ [groupName (VT type properties children)])
              children Hempty Hadd IH noPending Hempty) as [Hlog Hleft].
  apply Forall_app. split; [exact Hlog|]. now repeat constructor.
Qed.

Lemma excludedAmongFiles_addFile (file : ValueTree) (acc : Pending) :
  excludedAmongFiles acc -> excludedAmongFiles (addFile file acc).
Proof.
  intros [Hincl Hcpp]. unfold excludedAmongFiles, addFile.
  destruct (toInt (getProperty file "resource") =? 1)%Z; [now split|].
  destruct (hasFileExtension _ "cpp") eqn:Hext; cbn [andb];
    [destruct (toInt (getProperty file "compile") =? 0)%Z|];
    cbn [filePaths doNotCompileFilePaths]; split;
    try exact Hcpp;
    try (intros path Hpath; apply in_or_app; left; now apply Hincl).
  - intros path Hpath. apply in_app_or in Hpath. apply in_or_app.
    destruct Hpath as [Hpath|Hpath]; [left; now apply Hincl | now right].
  - apply Forall_app. split; [exact Hcpp | now repeat constructor].
Qed.

(** X7.  At every call of [writeFileGroups] made by [processGroup], each
    file not to compile is also in the file vector and has the extension
    [cpp].  So the header-only directive, which [writeFileGroups] writes
    only inside the block of the files, is never left out: the files not
    to compile are dropped only in a call without files, which
    [processGroup] makes only without files not to compile. *)
Theorem excluded_files_are_listed (group : ValueTree)
  (ancestors : list string) :
  Forall
    (fun call =>
       incl (doNotCompileFilePaths (callPending call))
         (filePaths (callPending call))
       /\ Forall (fun path => hasFileExtension path "cpp" = true)
            (doNotCompileFilePaths (callPending call))
       /\ (filePaths (callPending call) = [] ->
           doNotCompileFilePaths (callPending call) = []))
    (calls ancestors group)
  /\ forall (fullGroupName : string) (doNotCompile resources : list string)
       (out : string),
       writeFileGroups fullGroupName [] doNotCompile resources out
       = writeFileGroups fullGroupName [] [] resources out.
Proof.
  split; [|reflexivity].
  eapply Forall_impl;
    [|apply (calls_invariant excludedAmongFiles);
      [split; [intros path [] | constructor]
      | intros file acc; apply excludedAmongFiles_addFile]].
  intros call [Hincl Hcpp]. split; [exact Hincl|]. split; [exact Hcpp|].
  intros Hfiles. rewrite Hfiles in Hincl.
  destruct (doNotCompileFilePaths (callPending call)) as [|path paths];
    [reflexivity|].
  destruct (Hincl path (or_introl eq_refl)).
Qed.

Lemma flat_map_nil {A B : Type} (f : A -> list B) (l : list A) :
  flat_map f l = [] -> Forall (fun a => f a = []) l.
Proof.
  induction l as [|a l IH]; cbn [flat_map]; intros H; [constructor|].
  apply app_eq_nil in H. destruct H as [Ha Hl]. constructor; auto.
Qed.

(** X8.  A group under which there is no file and no resource, however
    many groups are nested in it, writes nothing: no empty block is
    written, and the output and the stack of names are left as they
    were.  This is the case of a project without [MAINGROUP]. *)
Theorem no_file_no_block (group : ValueTree) (ancestors : list string)
  (out : string) :
  sourcePaths group = [] ->
  resourcePathsUnder group = [] ->
  emitted ancestors group = ""
  /\ processGroup writeFileGroups group (ancestors, out) = (ancestors, out).
Proof.
  intros Hfiles Hresources.
  assert (Hemitted : emitted ancestors group = "").
  { unfold emitted. rewrite processGroup_replays. cbn [snd].
    rewrite replay_texts.
    pose proof (calls_collect filePaths _ eq_refl filePaths_addFile
                  group ancestors) as Hf.
    pose proof (calls_collect resourcePaths _ eq_refl resourcePaths_addFile
                  group ancestors) as Hr.
    fold sourcePaths in Hf. fold resourcePathsUnder in Hr.
    rewrite Hfiles in Hf. rewrite Hresources in Hr.
    apply flat_map_nil in Hf. apply flat_map_nil in Hr.
    induction (calls ancestors group) as [|call log IH]; [reflexivity|].
    apply Forall_cons_iff in Hf. apply Forall_cons_iff in Hr.
    destruct Hf as [Hf Hfs]. destruct Hr as [Hr Hrs].
    cbn [map]. rewrite concat_nil_cons, (IH Hfs Hrs), append_nil_r.
    unfold fileGroupsText. now rewrite Hf, Hr. }
  split; [exact Hemitted|].
  now rewrite processGroup_text, Hemitted, append_nil_r.
Qed.

Lemma no_file_no_block_witness :
  let group :=
    VT "MAINGROUP" [("name", varString "App")]
      [VT "GROUP" [("name", varString "Empty")]
         [VT "GROUP" [("name", varString "Deeper")] []]] in
  sourcePaths group = []
  /\ resourcePathsUnder group = []
  /\ emitted [] group = ""
  /\ processGroup writeFileGroups group ([], "before") = ([], "before").
Proof.
  cbn zeta. split; [reflexivity|]. split; [reflexivity|].
  apply (no_file_no_block
           (VT "MAINGROUP" [("name", varString "App")]
              [VT "GROUP" [("name", varString "Empty")]
                 [VT "GROUP" [("name", varString "Deeper")] []]])
           [] "before"); reflexivity.
Defined.

(** ** The name of the CMake variable *)

Lemma replaced_is_identifier (c : ascii) :
  (isAlphaOrDigit (if negb (isAlphaOrDigit c) then "_"%char else c)
   || ((if negb (isAlphaOrDigit c) then "_"%char else c) =? "_")%char)
  = true.
Proof. destruct (isAlphaOrDigit c) eqn:Hc; cbn [negb]; [now rewrite Hc | reflexivity]. Qed.

(** X9.  The name built from the project file name has as many characters
    as the file name and only letters, digits and underscores, so
    [<name>_FILE] is one CMake identifier whatever the file is called.  A
    name that already is such an identifier is kept, and building the name
    again changes nothing. *)
Theorem escapeFileName_identifier (jucerFileName : string) :
  length (escapeFileName jucerFileName) = length jucerFileName
  /\ isIdentifier (escapeFileName jucerFileName) = true
  /\ escapeFileName (escapeFileName jucerFileName) = escapeFileName jucerFileName
  /\ (isIdentifier jucerFileName = true ->
      escapeFileName jucerFileName = jucerFileName).
Proof.
  assert (Hkeep : forall s, isIdentifier s = true -> escapeFileName s = s).
  { induction s as [|c s IH]; [reflexivity|]. cbn [isIdentifier escapeFileName].
    intros H. apply andb_prop in H. destruct H as [Hc Hs]. rewrite (IH Hs).
    destruct (isAlphaOrDigit c); cbn [negb orb] in *; [reflexivity|].
    apply Ascii.eqb_eq in Hc. now subst c. }
  assert (Hid : isIdentifier (escapeFileName jucerFileName) = true).
  { induction jucerFileName as [|c s IH]; [reflexivity|].
    cbn [escapeFileName isIdentifier]. now rewrite replaced_is_identifier, IH. }
  split; [|split; [exact Hid | split; [now apply Hkeep | apply Hkeep]]].
  clear Hid Hkeep. induction jucerFileName as [|c s IH]; [reflexivity|].
  cbn [escapeFileName length]. now rewrite IH.
Qed.

Example escapeFileName_collision :
  escapeFileName "My App.jucer" = "My_App_jucer"
  /\ escapeFileName "My-App.jucer" = "My_App_jucer".
Proof. split; reflexivity. Qed.

(** ** Missing parts of the project *)

Lemma getChildWithName_missing (tree : ValueTree) (typeName : string) :
  Forall (fun child => getType child <> typeName) (getChildren tree) ->
  getChildWithName tree typeName = invalidTree.
Proof.
  unfold getChildWithName. intros H.
  induction H as [|child rest Hchild _ IH]; [reflexivity|].
  cbn [List.find]. apply String.eqb_neq in Hchild. now rewrite Hchild.
Qed.

Lemma getChildWithProperty_missing (tree : ValueTree) (name : string)
  (value : var) :
  Forall (fun child => var_eqb (getProperty child name) value = false)
    (getChildren tree) ->
  getChildWithProperty tree name value = invalidTree.
Proof.
  unfold getChildWithProperty. intros H.
  induction H as [|child rest Hchild _ IH]; [reflexivity|].
  cbn [List.find]. now rewrite Hchild.
Qed.

Lemma exportTargets_none
  (relativePath : string -> string -> string -> string)
  (jucerProject : ValueTree) (jucerFilePath : string) :
  Forall
    (fun exporter =>
       ~ In (getType exporter) ["XCODE_MAC"; "VS2015"; "VS2013"])
    (getChildren (getChildWithName jucerProject "EXPORTFORMATS")) ->
  forEach (exportTarget relativePath jucerProject jucerFilePath)
    supportedExporters
  = Returns "".
Proof.
  intros Hnone.
  assert (Hmissing : forall tag,
    In tag ["XCODE_MAC"; "VS2015"; "VS2013"] ->
    getChildWithName (getChildWithName jucerProject "EXPORTFORMATS") tag
    = invalidTree).
  { intros tag Htag. apply getChildWithName_missing.
    eapply Forall_impl; [|exact Hnone].
    intros exporter Hexporter Heq. apply Hexporter. now rewrite Heq. }
  unfold supportedExporters. cbn [forEach exportTarget].
  rewrite !Hmissing by (cbn; tauto). reflexivity.
Qed.

(** X10.  Export formats other than the three supported ones are passed
    over: when [EXPORTFORMATS] has no child of type [XCODE_MAC], [VS2015]
    or [VS2013], whatever else it holds, no export target and no
    configuration is written, and nothing fails. *)
Theorem unsupported_exporters_ignored
  (relativePath : string -> string -> string -> string)
  (jucerProject : ValueTree)
  (jucerFilePath : string) :
  Forall
    (fun exporter =>
       ~ In (getType exporter) ["XCODE_MAC"; "VS2015"; "VS2013"])
    (getChildren (getChildWithName jucerProject "EXPORTFORMATS")) ->
  forEach (exportTarget relativePath jucerProject jucerFilePath)
    supportedExporters
  = Returns "".
Proof. apply exportTargets_none. Qed.


(** X11.  A module for which the table of module paths has no entry with
    its [id] gets the empty path: the block is written with [PATH] and two
    quotes, and the options are those of the header read under the empty
    relative path.  This is the case of every module when the project has
    no export format. *)
Theorem module_without_path
  (readLines : string -> string -> string -> list string)
  (jucerProject : ValueTree)
  (jucerFilePath : string) (modulePaths : ValueTree) (moduleName : string) :
  Forall
    (fun entry =>
       var_eqb (getProperty entry "id") (varString moduleName) = false)
    (getChildren modulePaths) ->
  projectModule readLines jucerProject jucerFilePath modulePaths moduleName
  = "jucer_project_module(" ++ NL
    ++ "  " ++ moduleName ++ NL
    ++ "  PATH " ++ Q ++ Q ++ NL
    ++ String.concat ""
         (map (moduleHeaderLine (getChildWithName jucerProject "JUCEOPTIONS"))
            (readLines jucerFilePath "" moduleName))
    ++ ")" ++ NL ++ NL.
Proof.
  intros Hmissing. unfold projectModule.
  now rewrite (getChildWithProperty_missing _ _ _ Hmissing).
Qed.


(** X12.  A project without [MAINGROUP], [MODULES] and [EXPORTFORMATS]
    children is no error: the three blocks that read them write nothing. *)
Theorem missing_sections_write_nothing
  (readLines : string -> string -> string -> list string)
  (relativePath : string -> string -> string -> string)
  (jucerProject : ValueTree)
  (jucerFilePath out : string) :
  Forall
    (fun child =>
       ~ In (getType child) ["MAINGROUP"; "MODULES"; "EXPORTFORMATS"])
    (getChildren jucerProject) ->
  projectFiles jucerProject out = out
  /\ projectModules readLines jucerProject jucerFilePath = ""
  /\ forEach (exportTarget relativePath jucerProject jucerFilePath)
       supportedExporters
     = Returns "".
Proof.
  intros Hnone.
  assert (Hmissing : forall name,
    In name ["MAINGROUP"; "MODULES"; "EXPORTFORMATS"] ->
    getChildWithName jucerProject name = invalidTree).
  { intros name Hname. apply getChildWithName_missing.
    eapply Forall_impl; [|exact Hnone].
    intros child Hchild Heq. apply Hchild. now rewrite Heq. }
  split; [|split].
  - unfold projectFiles. rewrite Hmissing by (cbn; tauto). reflexivity.
  - unfold projectModules. rewrite !Hmissing by (cbn; tauto). reflexivity.
  - apply exportTargets_none.
    rewrite Hmissing by (cbn; tauto). constructor.
Qed.


Lemma unsupported_exporters_ignored_witness :
  let jucerProject :=
    VT "JUCERPROJECT" []
      [VT "EXPORTFORMATS" []
         [VT "LINUX_MAKE" [("targetFolder", varString "Builds/Linux")]
            [VT "CONFIGURATIONS" []
               [VT "CONFIGURATION" [("name", varString "Debug")] []]]]] in
  Forall
    (fun exporter =>
       ~ In (getType exporter) ["XCODE_MAC"; "VS2015"; "VS2013"])
    (getChildren (getChildWithName jucerProject "EXPORTFORMATS"))
  /\ forEach (exportTarget (fun _ _ path => path) jucerProject "App.jucer")
       supportedExporters
     = Returns "".
Proof.
  cbn zeta.
  assert (H : Forall
    (fun exporter =>
       ~ In (getType exporter) ["XCODE_MAC"; "VS2015"; "VS2013"])
    (getChildren
       (getChildWithName
          (VT "JUCERPROJECT" []
             [VT "EXPORTFORMATS" []
                [VT "LINUX_MAKE" [("targetFolder", varString "Builds/Linux")]
                   [VT "CONFIGURATIONS" []
                      [VT "CONFIGURATION" [("name", varString "Debug")] []]]]])
          "EXPORTFORMATS"))).
  { repeat constructor. cbn. intros [H|[H|[H|[]]]]; discriminate. }
  split; [exact H|].
  exact (unsupported_exporters_ignored (fun _ _ path => path) _ "App.jucer" H).
Defined.

Lemma module_without_path_witness :
  let jucerProject :=
    VT "JUCERPROJECT" []
      [VT "MODULES" [] [VT "MODULE" [("id", varString "juce_core")] []]] in
  let modulePaths :=
    getChildWithName
      (getChild (getChildWithName jucerProject "EXPORTFORMATS") 0)
      "MODULEPATHS" in
  Forall
    (fun entry =>
       var_eqb (getProperty entry "id") (varString "juce_core") = false)
    (getChildren modulePaths)
  /\ projectModules (fun _ _ _ => []) jucerProject "App.jucer"
     = "jucer_project_module(" ++ NL
       ++ "  juce_core" ++ NL
       ++ "  PATH " ++ Q ++ Q ++ NL
       ++ ")" ++ NL ++ NL.
Proof.
  cbn zeta. split; [constructor|].
  unfold projectModules. cbn [getChildren getChildWithName List.find map
                              getType String.eqb Ascii.eqb Bool.eqb].
  cbn [String.concat].
  rewrite (module_without_path (fun _ _ _ => [])
             (VT "JUCERPROJECT" []
                [VT "MODULES" [] [VT "MODULE" [("id", varString "juce_core")] []]])
             "App.jucer" _ _);
    [reflexivity | constructor].
Defined.

Lemma missing_sections_write_nothing_witness :
  let jucerProject :=
    VT "JUCERPROJECT" [("name", varString "App")]
      [VT "JUCEOPTIONS" [("JUCE_QUICKTIME", varString "disabled")] []] in
  Forall
    (fun child =>
       ~ In (getType child) ["MAINGROUP"; "MODULES"; "EXPORTFORMATS"])
    (getChildren jucerProject)
  /\ projectFiles jucerProject "text" = "text".
Proof.
  cbn zeta.
  assert (H : Forall
    (fun child =>
       ~ In (getType child) ["MAINGROUP"; "MODULES"; "EXPORTFORMATS"])
    (getChildren
       (VT "JUCERPROJECT" [("name", varString "App")]
          [VT "JUCEOPTIONS" [("JUCE_QUICKTIME", varString "disabled")] []]))).
  { repeat constructor. cbn. intros [H|[H|[H|[]]]]; discriminate. }
  split; [exact H|].
  exact (proj1 (missing_sections_write_nothing (fun _ _ _ => [])
                  (fun _ _ path => path) _ "App.jucer" "text" H)).
Defined.

(** ** Header search paths made of empty lines *)

Lemma splitOn_allChar (c : ascii) (s : string) :
  allChar c s = true ->
  filter (fun segment => negb (segment =? "")%string) (splitOn c s) = [].
Proof.
  induction s as [|d s IH]; [reflexivity|].
  cbn [allChar splitOn]. intros H. apply andb_prop in H. destruct H as [Hd Hs].
  rewrite Hd. cbn [filter String.eqb negb]. now apply IH.
Qed.

(** X13.  A [headerPath] that is not empty but holds only line feeds has
    no segment left after the empty ones are dropped: the argument is then
    written with an empty value between quotes, not commented out as for
    an empty [headerPath]. *)
Theorem header_search_paths_of_empty_lines
  (relativePath : string -> string -> string -> string)
  (jucerFilePath : string) (exporter configuration : ValueTree) :
  let raw := toString (getProperty configuration "headerPath") in
  raw <> "" ->
  allChar newline raw = true ->
  headerSearchPaths relativePath jucerFilePath exporter configuration
  = Returns ("  HEADER_SEARCH_PATHS " ++ Q ++ Q ++ NL).
Proof.
  cbn zeta. intros Hraw Hlines. unfold headerSearchPaths.
  apply String.eqb_neq in Hraw. rewrite Hraw.
  change NL with (String newline "") at 1. rewrite split_char. cbn [bind].
  rewrite relativeHeaderPaths_map, (splitOn_allChar _ _ Hlines).
  reflexivity.
Qed.

Lemma header_search_paths_of_empty_lines_witness :
  let configuration :=
    VT "CONFIGURATION" [("headerPath", varString (NL ++ NL))] [] in
  toString (getProperty configuration "headerPath") <> ""
  /\ allChar newline (toString (getProperty configuration "headerPath")) = true
  /\ headerSearchPaths (fun _ _ path => path) "App.jucer"
       (VT "VS2015" [] []) configuration
     = Returns ("  HEADER_SEARCH_PATHS " ++ Q ++ Q ++ NL).
Proof.
  cbn zeta. split; [discriminate|]. split; [reflexivity|].
  apply (header_search_paths_of_empty_lines (fun _ _ path => path) "App.jucer"
           (VT "VS2015" [] [])
           (VT "CONFIGURATION" [("headerPath", varString (NL ++ NL))] []));
    [discriminate | reflexivity].
Defined.

(** ** The blocks of the file *)

(** X14.  For a valid project every block returns, and the file is made of
    the blocks in a fixed order whatever the order of the children of the
    project: the preamble, the inclusion of Reprojucer, the guard on the
    variable, the beginning of the project, its settings, the settings of
    the plug-in, the file groups, the modules, the export targets, and the
    end of the project as the last line.  The file groups are written
    after what precedes them without changing it. *)
Theorem blocks_in_order
  (getFileName relativeParentDirectory : string -> string)
  (readLines : string -> string -> string -> list string)
  (relativePath : string -> string -> string -> string)
  (jucerProject : ValueTree) (jucerFilePath reprojucerFilePath : string) :
  let escapedJucerFileName := escapeFileName (getFileName jucerFilePath) in
  exists beginning settings pluginSettings targets : string,
    projectBegin jucerProject escapedJucerFileName = Returns beginning
    /\ projectSettings jucerProject = Returns settings
    /\ audioPluginSettings jucerProject = Returns pluginSettings
    /\ forEach (exportTarget relativePath jucerProject jucerFilePath)
         supportedExporters
       = Returns targets
    /\ writeCMakeLists getFileName relativeParentDirectory readLines
         relativePath jucerProject jucerFilePath reprojucerFilePath
       = Returns
           (preamble (getFileName jucerFilePath)
            ++ includeReprojucer relativeParentDirectory reprojucerFilePath
            ++ getFilenameComponent escapedJucerFileName
            ++ beginning
            ++ settings
            ++ pluginSettings
            ++ emitted [] (getChildWithName jucerProject "MAINGROUP")
            ++ projectModules readLines jucerProject jucerFilePath
            ++ targets
            ++ "jucer_project_end()" ++ NL).
Proof.
  cbn zeta. unfold writeCMakeLists.
  assert (Hbegin : returns (projectBegin jucerProject
                              (escapeFileName (getFileName jucerFilePath)))).
  { unfold projectBegin. rewrite getSetting_returns. apply returns_Returns. }
  destruct Hbegin as [beginning Hbegin].
  destruct (projectSettings_returns jucerProject) as [settings Hsettings].
  destruct (audioPluginSettings_returns jucerProject) as [plugin Hplugin].
  destruct (forEach_returns
              (exportTarget relativePath jucerProject jucerFilePath)
              supportedExporters
              (exportTarget_returns relativePath jucerProject jucerFilePath))
    as [targets Htargets].
  exists beginning, settings, plugin, targets.
  rewrite Hbegin, Hsettings, Hplugin, Htargets. cbn [bind].
  repeat (split; [reflexivity|]).
  rewrite projectFiles_text. now rewrite !append_assoc.
Qed.

(** ** The type of the project *)



(** ** [writeJuce6CMakeLists] *)


Example juce6_library :
  writeJuce6CMakeLists keepLine
    (Xml "JUCERPROJECT" [("name", "Lib"); ("projectType", "library")] []) []
  = [[]; ["cmake_minimum_required(VERSION "; "3.12"; ")"]; [];
     ["project(" ++ Q; "Lib"; Q ++ ")"]; []; [];
     ["find_package(JUCE CONFIG REQUIRED)"]; []; [];
     [""; "("; "Lib"]; ["  VERSION " ++ Q ++ "1.0.0" ++ Q]; [")"]; [];
     ["juce_generate_juce_header("; "Lib"; ")"]].
Proof. reflexivity. Qed.

(** ** Escaping a joined list *)

Lemma escaped_concat (chars sep : string) (elements : list string) :
  hasSpecial chars sep = false ->
  escaped chars (String.concat sep elements)
  = String.concat sep (map (escaped chars) elements).
Proof.
  intros Hsep. induction elements as [|x elements IH]; [reflexivity|].
  destruct elements as [|y elements]; [reflexivity|].
  change (String.concat sep (x :: y :: elements))
    with (x ++ sep ++ String.concat sep (y :: elements)).
  rewrite !escaped_app, (escaped_plain _ _ Hsep), IH. reflexivity.
Qed.

(** X17.  When no character of the separator is to be escaped, escaping a
    joined list is joining the escaped elements: each element is escaped
    on its own and the separators are left alone.  This is how the header
    search paths are written, joined by line feeds and then escaped for
    backslashes. *)
Theorem escape_join (charsToEscape sep : string) (elements : list string) :
  hasSpecial charsToEscape sep = false ->
  exists escapedElements : list string,
    Forall2 (fun element out => escape charsToEscape element = Returns out)
      elements escapedElements
    /\ escape charsToEscape (join sep elements)
       = Returns (join sep escapedElements).
Proof.
  intros Hsep. exists (map (escaped charsToEscape) elements). split.
  - induction elements as [|x elements IH]; constructor;
      [apply escape_returns | exact IH].
  - rewrite escape_returns, !join_concat. f_equal.
    now apply escaped_concat.
Qed.

Lemma escape_join_witness :
  hasSpecial BS NL = false
  /\ exists escapedElements : list string,
       Forall2 (fun element out => escape BS element = Returns out)
         ["..\inc"; "C:\sdk"] escapedElements
       /\ escape BS (join NL ["..\inc"; "C:\sdk"])
          = Returns (join NL escapedElements).
Proof.
  split; [reflexivity|].
  apply (escape_join BS NL ["..\inc"; "C:\sdk"]). reflexivity.
Defined.

Example escape_join_example :
  escape BS (join NL ["..\inc"; "C:\sdk"])
  = Returns ("..\\inc" ++ NL ++ "C:\\sdk").
Proof. reflexivity. Qed.

(** ** The path of the module directory *)



Example module_path_windows :
  includeReprojucer (fun _ => "..\..\cmake") "..\..\cmake\Reprojucer.cmake"
  = "list(APPEND CMAKE_MODULE_PATH " ++ Q
    ++ "${CMAKE_CURRENT_LIST_DIR}/../../cmake" ++ Q ++ ")" ++ NL
    ++ "include(Reprojucer)" ++ NL ++ NL ++ NL.
Proof. reflexivity. Qed.

(** ** Every file is written *)



Lemma quotedLines_occurs (prefix path : string) (paths : list string) :
  In path paths ->
  occursIn ("  " ++ Q ++ prefix ++ path ++ Q ++ NL) (quotedLines prefix paths).
Proof.
  intros Hin. unfold quotedLines.
  apply (occursIn_concat _ _ paths path Hin). apply occursIn_refl.
Qed.

Lemma fileGroupsText_occurs (fullGroupName : string) (acc : Pending)
  (path : string) :
  (In path (filePaths acc) ->
   occursIn ("  " ++ Q ++ path ++ Q ++ NL) (fileGroupsText fullGroupName acc))
  /\ (In path (resourcePaths acc) ->
      occursIn ("  " ++ Q ++ path ++ Q ++ NL)
        (fileGroupsText fullGroupName acc))
  /\ (In path (doNotCompileFilePaths acc) -> filePaths acc <> [] ->
      occursIn ("  " ++ Q ++ "${JUCER_PROJECT_DIR}/" ++ path ++ Q ++ NL)
        (fileGroupsText fullGroupName acc)).
Proof.
  unfold fileGroupsText. rewrite writeFileGroups_text.
  destruct acc as [files excluded resources].
  cbn [filePaths doNotCompileFilePaths resourcePaths].
  split; [|split].
  - intros Hin. apply occursIn_app_r, occursIn_app_l.
    destruct files as [|f files]; [destruct Hin|].
    do 5 apply occursIn_app_r. apply occursIn_app_l.
    now apply (quotedLines_occurs "").
  - intros Hin. do 2 apply occursIn_app_r.
    destruct resources as [|r resources]; [destruct Hin|].
    do 5 apply occursIn_app_r. apply occursIn_app_l.
    now apply (quotedLines_occurs "").
  - intros Hin Hfiles. apply occursIn_app_r, occursIn_app_l.
    destruct files as [|f files]; [congruence|].
    do 6 apply occursIn_app_r. apply occursIn_app_l.
    destruct excluded as [|e excluded]; [destruct Hin|].
    do 4 apply occursIn_app_r. apply occursIn_app_l.
    now apply quotedLines_occurs.
Qed.


(** X19.  Every file under a group is written: the text for the group
    holds, on a line of its own and between quotes, the path of each
    source file and of each resource, and, after the variable of the
    project directory, the path of each file not to compile. *)
Theorem every_file_is_written (group : ValueTree) (ancestors : list string) :
  Forall
    (fun path =>
       occursIn ("  " ++ Q ++ path ++ Q ++ NL) (emitted ancestors group))
    (sourcePaths group ++ resourcePathsUnder group)
  /\ Forall
       (fun path =>
          occursIn ("  " ++ Q ++ "${JUCER_PROJECT_DIR}/" ++ path ++ Q ++ NL)
            (emitted ancestors group))
       (excludedPaths group).
Proof.
  rewrite emitted_texts.
  pose proof (calls_collect filePaths _ eq_refl filePaths_addFile
                group ancestors) as Hf.
  pose proof (calls_collect resourcePaths _ eq_refl resourcePaths_addFile
                group ancestors) as Hr.
  pose proof (calls_collect doNotCompileFilePaths _ eq_refl
                doNotCompile_addFile group ancestors) as He.
  fold sourcePaths in Hf. fold resourcePathsUnder in Hr.
  fold excludedPaths in He. rewrite <- Hf, <- Hr, <- He.
  pose proof (calls_invariant excludedAmongFiles
                (conj (fun path (H : In path []) => match H with end)
                      (Forall_nil _))
                excludedAmongFiles_addFile group ancestors) as Hinv.
  split; [apply Forall_app; split|]; apply Forall_forall; intros path Hpath;
    unfold vectorOfCalls in Hpath; apply in_flat_map in Hpath;
    destruct Hpath as (call & Hcall & Hpath);
    apply (occursIn_concat _ _ _ call Hcall).
  - now apply (proj1 (fileGroupsText_occurs _ _ _)).
  - now apply (proj1 (proj2 (fileGroupsText_occurs _ _ _))).
  - apply (proj2 (proj2 (fileGroupsText_occurs _ _ _))); [exact Hpath|].
    rewrite Forall_forall in Hinv. destruct (Hinv call Hcall) as [Hincl _].
    intros Hnil. rewrite Hnil in Hincl. exact (Hincl path Hpath).
Qed.
